(** * DayZ workshop downloader: a shallow embedding of the download
      orchestrator and its log bus

    The development follows the JavaScript sources:
    - [server.js]: the job table [activeDownloads], the HTTP handlers
      (submit, status, file delivery, cleanup, clear), the periodic
      sweeper and the asynchronous download pipeline;
    - [advanced-steam-downloader.js] (class [AdvancedSteamDownloader],
      printed after the server in [server.js]): the invocations of the
      external steam client and the retry loop;
    - [websocketLogger.js] (class [WebSocketLogger], printed after the
      models in [models/index.js]): the log ring and the fan-out to
      subscribers.

    Conventions.  JavaScript numbers that hold counts, sizes, percentages
    and epoch milliseconds are [Z]; a time kept as an ISO string is the
    instant it denotes; strings are [string]; the job table (a [Map]) is
    a [gmap string download]; the file system is a finite map from
    normalised paths to nodes.  What the outside world decides (the
    clock, the scraper's answer, what a child process prints and leaves
    on disk) is an explicit input of the function that consumes it.  The
    lines the server and the downloader print or hand to the logger are
    not part of the state, and the calls to the persistence layer, whose
    failures the server swallows, are kept as a list. *)

From stdpp Require Import gmap strings list fin_maps pretty.
From Stdlib Require Import ZArith Lia Ascii.

Local Open Scope string_scope.

(** A list of numbers that never goes down. *)
Fixpoint nondecreasing (l : list Z) : bool :=
  match l with
  | a :: (b :: _) as rest => (a <=? b)%Z && nondecreasing rest
  | _ => true
  end.

(** ** JavaScript helpers *)

Module JS.

(** [s.includes(needle)] *)
Fixpoint includes (s needle : string) : bool :=
  String.prefix needle s ||
  match s with
  | EmptyString => false
  | String _ rest => includes rest needle
  end.

(** A string is truthy when it is not empty. *)
Definition truthy (s : string) : bool :=
  match s with EmptyString => false | _ => true end.

(** [process.env.X || fallback] for a string-valued variable. *)
Definition or_default (v : option string) (fallback : string) : string :=
  match v with
  | Some s => if truthy s then s else fallback
  | None => fallback
  end.

(** [n || fallback] where [n] is the result of [parseInt]: [None] stands
    for [NaN]; [NaN] and [0] are falsy. *)
Definition num_or_default (n : option Z) (fallback : Z) : Z :=
  match n with
  | Some k => if (k =? 0)%Z then fallback else k
  | None => fallback
  end.

(** [\d] of a regular expression without the unicode flag. *)
Definition is_digit (c : ascii) : bool :=
  (48 <=? nat_of_ascii c)%nat && (nat_of_ascii c <=? 57)%nat.

(** The longest prefix made of digits: the greedy [\d+] (empty when the
    first character is not a digit). *)
Fixpoint take_digits (s : string) : string :=
  match s with
  | EmptyString => EmptyString
  | String c rest => if is_digit c then String c (take_digits rest) else EmptyString
  end.

(** The character [c] occurs in [s]. *)
Fixpoint has_char (c : ascii) (s : string) : bool :=
  match s with
  | EmptyString => false
  | String c' rest => Ascii.eqb c' c || has_char c rest
  end.

(** Every character is a digit. *)
Fixpoint only_digits (s : string) : bool :=
  match s with
  | EmptyString => true
  | String c rest => is_digit c && only_digits rest
  end.

(** [/^\d+$/.test(s)]: a non-empty string of digits. *)
Definition is_number (s : string) : bool := truthy s && only_digits s.

Fixpoint drop_chars (n : nat) (s : string) : string :=
  match n, s with
  | O, _ => s
  | S k, String _ rest => drop_chars k rest
  | S _, EmptyString => EmptyString
  end.

(** White space as [parseInt] skips it, among the code units below 256:
    TAB, LF, VT, FF, CR, space and the no-break space. *)
Definition is_space (c : ascii) : bool :=
  ((9 <=? nat_of_ascii c)%nat && (nat_of_ascii c <=? 13)%nat)
  || (nat_of_ascii c =? 32)%nat || (nat_of_ascii c =? 160)%nat.

Fixpoint skip_spaces (s : string) : string :=
  match s with
  | String c rest => if is_space c then skip_spaces rest else s
  | EmptyString => EmptyString
  end.

(** The number written by a string of decimal digits, [acc] being the
    value of the digits already read. *)
Fixpoint digits_value (acc : Z) (s : string) : Z :=
  match s with
  | EmptyString => acc
  | String c rest => digits_value (10 * acc + (Z.of_nat (nat_of_ascii c) - 48))%Z rest
  end.

(** [parseInt(s, 10)]: leading white space, an optional sign, then the
    longest run of digits; [None] stands for [NaN].  The result is the
    integer that is written, which is the JavaScript number as long as it
    is below 2^53. *)
Definition parseInt (s : string) : option Z :=
  let trimmed := skip_spaces s in
  let sign := match trimmed with String "-" _ => (-1)%Z | _ => 1%Z end in
  let unsigned :=
    match trimmed with
    | String "-" rest | String "+" rest => rest
    | _ => trimmed
    end in
  if truthy (take_digits unsigned)
  then Some (sign * digits_value 0 (take_digits unsigned))%Z
  else None.

(** [s.replace(pattern, "")] for a pattern that is a plain text and has
    no [g] flag: the first occurrence is dropped. *)
Fixpoint drop_first (pattern s : string) : string :=
  if String.prefix pattern s then drop_chars (String.length pattern) s
  else
    match s with
    | EmptyString => EmptyString
    | String c rest => String c (drop_first pattern rest)
    end.

(** [s.split(sep)] for a separator of one character. *)
Fixpoint split (sep : ascii) (s : string) : list string :=
  match s with
  | EmptyString => [EmptyString]
  | String c rest =>
      if Ascii.eqb c sep then EmptyString :: split sep rest
      else
        match split sep rest with
        | part :: parts => String c part :: parts
        | [] => [String c EmptyString]
        end
  end.

(** [path.join(a, b)] for normalised, non-empty segments. *)
Definition path_join (a b : string) : string := a +:+ "/" +:+ b.

(** Position-wise helpers for [path.dirname]: the text before the last
    ["/"].  [None] when there is no separator. *)
Fixpoint before_last_slash (s : string) : option string :=
  match s with
  | EmptyString => None
  | String c rest =>
      match before_last_slash rest with
      | Some d => Some (String c d)
      | None => if Ascii.eqb c "/"%char then Some EmptyString else None
      end
  end.

(** [path.dirname(p)] for a normalised path without trailing separator. *)
Definition dirname (p : string) : string :=
  match before_last_slash p with
  | None => "."
  | Some EmptyString => "/"
  | Some d => d
  end.

End JS.

(** ** The file system

  A finite map from normalised absolute paths to nodes.  A directory
  exists when it has an entry of its own or when some entry lies below
  it, so the parents of a file always exist.  File system calls are
  taken to succeed. *)

Module Fs.

Inductive node : Type :=
| File (size : Z)
| Dir.

#[global] Instance node_eq_dec : EqDecision node.
Proof. solve_decision. Defined.

Abbreviation t := (gmap string node).

(** [p] lies strictly below [dir]. *)
Definition under (dir p : string) : bool := String.prefix (dir +:+ "/") p.

Definition at_or_under (dir p : string) : bool := String.eqb dir p || under dir p.

(** [fs.existsSync(p)] *)
Definition existsSync (fs : t) (p : string) : bool :=
  bool_decide (filter (λ kv, at_or_under p kv.1 = true) fs ≠ ∅).

(** The entries below [p]; [fs.readdirSync(p)] lists their first path
    segments, so it is non-empty exactly when this map is. *)
Definition below (fs : t) (p : string) : t :=
  filter (λ kv, under p kv.1 = true) fs.

(** [fs.readdirSync(p).length > 0] *)
Definition has_entries (fs : t) (p : string) : bool :=
  bool_decide (below fs p ≠ ∅).

(** [fs.statSync(p).size] of a regular file. *)
Definition stat_size (fs : t) (p : string) : Z :=
  match fs !! p with
  | Some (File sz) => sz
  | _ => 0%Z
  end.

(** [fs.remove(p)]: the entry and everything below it. *)
Definition remove (fs : t) (p : string) : t :=
  filter (λ kv, at_or_under p kv.1 = false) fs.

(** [fs.ensureDir(p)] *)
Definition ensureDir (fs : t) (p : string) : t :=
  if existsSync fs p then fs else <[p := Dir]> fs.

End Fs.

(** ** Double-precision arithmetic

  A non-negative double is represented exactly, as an integer multiple of
  2^-1074 (the smallest positive double): [one] stands for 1.0. *)

Module Double.

Local Open Scope Z_scope.

Definition one : Z := 2 ^ 1074.

(** Rounding of a non-negative value to the nearest double (53
    significant bits, ties to even). *)
Definition round_double (x : Z) : Z :=
  let excess := Z.log2 x - 52 in
  if excess <=? 0 then x
  else
    let q := x / 2 ^ excess in
    let r := x mod 2 ^ excess in
    let half := 2 ^ (excess - 1) in
    let q' :=
      if r <? half then q
      else if half <? r then q + 1
      else if Z.even q then q else q + 1 in
    q' * 2 ^ excess.

(** [p / t] for two counts [0 <= p] and [0 < t] below 2^53: the quotient
    rounded once.  The bits of the exact quotient below the unit are
    remembered in the lowest bit, which lies below the rounding position. *)
Definition divide (p t : Z) : Z :=
  let sticky := if (p * one) mod t =? 0 then 0 else 1 in
  round_double (Z.lor ((p * one) / t) sticky).

(** [x * k] for a double [x] and a small count [k]. *)
Definition times (x k : Z) : Z := round_double (x * k).

(** [Math.floor(x)] *)
Definition floor (x : Z) : Z := x / one.

End Double.

(** ** The external-client adapter: class [AdvancedSteamDownloader] *)

Module Adapter.

Local Open Scope Z_scope.

(** How one run of the steam client ends, as its event handlers see it:
    the [close] event with the exit code, the [error] event of a failed
    spawn, or the downloader's own timer firing first (the [close] event
    of the killed process, which arrives after the promise has settled,
    is then not followed). *)
Inductive ending : Type :=
| Closed (code : Z)
| SpawnError (message : string)
| TimedOut.

(** One run of the child process: the chunks its stdout delivers, how it
    ends, what it does to the file system and how long it takes. *)
Record proc : Type := {
  stdout : list string;
  ends : ending;
  leaves : Fs.t → Fs.t;
  elapsed : Z
}.

(** A spawn for which nothing is scripted fails to start. *)
Definition no_proc : proc :=
  {| stdout := []; ends := SpawnError "spawn ENOENT"; leaves := λ fs, fs; elapsed := 0 |}.

(** The fields of the downloader object. *)
Record downloader : Type := {
  steamcmdPath : string;
  steamUsername : string;
  steamPassword : string;
  retryCount : Z;
  retryDelay : Z;
  timeout : Z;
  sessionValid : bool;
  lastSessionCheck : Z;
  sessionCheckInterval : Z
}.

(** [new AdvancedSteamDownloader(steamcmdPath, steamUsername, steamPassword)] *)
Definition new (path user password : string) : downloader :=
  {| steamcmdPath := path; steamUsername := user; steamPassword := password;
     retryCount := 5; retryDelay := 10000; timeout := 7200000;
     sessionValid := false; lastSessionCheck := 0; sessionCheckInterval := 1800000 |}.

(** What the downloader does to the outside, in order: the processes it
    starts, the waits, the removal of a partial download, and the lines
    that announce an attempt and report its failure. *)
Inductive effect : Type :=
| Spawn (argv : list string)
| Sleep (ms : Z)
| Attempt (n : Z)
| Failure (n : Z) (message : string)
| Remove (path : string).

#[global] Instance effect_eq_dec : EqDecision effect.
Proof. solve_decision. Defined.

(** The downloader together with the world it runs in.  [script] lists
    the runs that the coming spawns will observe; [saved_login] and
    [userdata_configs] say what [isAuthenticated] finds in the steam
    directory (a [config.vdf] naming the user; the number of [userdata]
    entries with a [localconfig.vdf]); [effects] is newest first. *)
Record state : Type := {
  self : downloader;
  fs : Fs.t;
  script : list proc;
  now : Z;
  saved_login : bool;
  userdata_configs : nat;
  effects : list effect
}.

Definition trace (s : state) : list effect := rev (effects s).

Definition set_self (f : downloader → downloader) (s : state) : state :=
  {| self := f (self s); fs := fs s; script := script s; now := now s;
     saved_login := saved_login s; userdata_configs := userdata_configs s;
     effects := effects s |}.

Definition set_fs (f : Fs.t → Fs.t) (s : state) : state :=
  {| self := self s; fs := f (fs s); script := script s; now := now s;
     saved_login := saved_login s; userdata_configs := userdata_configs s;
     effects := effects s |}.

Definition emit (e : effect) (s : state) : state :=
  {| self := self s; fs := fs s; script := script s; now := now s;
     saved_login := saved_login s; userdata_configs := userdata_configs s;
     effects := e :: effects s |}.

Definition advance (ms : Z) (s : state) : state :=
  {| self := self s; fs := fs s; script := script s; now := now s + ms;
     saved_login := saved_login s; userdata_configs := userdata_configs s;
     effects := effects s |}.

Definition mark_session (valid : bool) (d : downloader) : downloader :=
  {| steamcmdPath := steamcmdPath d; steamUsername := steamUsername d;
     steamPassword := steamPassword d; retryCount := retryCount d;
     retryDelay := retryDelay d; timeout := timeout d;
     sessionValid := valid; lastSessionCheck := lastSessionCheck d;
     sessionCheckInterval := sessionCheckInterval d |}.

Definition mark_checked (t : Z) (d : downloader) : downloader :=
  {| steamcmdPath := steamcmdPath d; steamUsername := steamUsername d;
     steamPassword := steamPassword d; retryCount := retryCount d;
     retryDelay := retryDelay d; timeout := timeout d;
     sessionValid := true; lastSessionCheck := t;
     sessionCheckInterval := sessionCheckInterval d |}.

(** [this.sessionValid = true; this.lastSessionCheck = Date.now()] *)
Definition session_ok (s : state) : state := set_self (mark_checked (now s)) s.

(** [spawn(this.steamcmdPath, argv, ...)] and waiting for the run to end,
    at most [limit] milliseconds: the next scripted run is consumed, its
    file system changes are applied and the clock moves on. *)
Definition spawn (argv : list string) (limit : Z) (s : state) : proc * state :=
  let p := match script s with [] => no_proc | p :: _ => p end in
  let took := match ends p with TimedOut => limit | _ => elapsed p end in
  (p,
   {| self := self s; fs := leaves p (fs s); script := tail (script s);
      now := now s + took; saved_login := saved_login s;
      userdata_configs := userdata_configs s;
      effects := Spawn argv :: effects s |}).

(** A flag raised by a [data] handler: some chunk contains one of the
    markers. *)
Definition seen (markers : list string) (chunks : list string) : bool :=
  existsb (λ dataStr, existsb (JS.includes dataStr) markers) chunks.

(** [output += dataStr] over all chunks. *)
Definition output_of (chunks : list string) : string :=
  foldr String.append "" chunks.

(** The settled value of a promise. *)
Inductive promise (A : Type) : Type :=
| Resolved (value : A)
| Rejected (message : string).
Arguments Resolved {A} value.
Arguments Rejected {A} message.

(** The object a download resolves with. *)
Record result : Type := {
  success : bool;
  method : string;
  path : string;
  output : string
}.

(** [path.join(downloadPath, 'steamapps', 'workshop', 'content', appId, workshopId)] *)
Definition expectedPath (downloadPath appId workshopId : string) : string :=
  JS.path_join (JS.path_join (JS.path_join (JS.path_join (JS.path_join
    downloadPath "steamapps") "workshop") "content") appId) workshopId.

(** [fs.existsSync(p)] followed by [fs.readdirSync(p).length > 0]. *)
Definition has_content (fs : Fs.t) (p : string) : bool :=
  Fs.existsSync fs p && Fs.has_entries fs p.

(** [verifySessionActive()] *)
Definition verifySessionActive (s : state) : bool * state :=
  let '(p, s) := spawn ["+login"; steamUsername (self s); "+quit"] 30000 s in
  let needsSteamGuard := seen ["Steam Guard"; "Two-factor"] (stdout p) in
  let loginSuccess :=
    seen ["Logged in OK"; "Waiting for client config...OK"; "Loading Steam API...OK"]
         (stdout p) in
  match ends p with
  | TimedOut => (false, s)
  | SpawnError _ => (false, s)
  | Closed code =>
      if needsSteamGuard then (false, s)
      else if loginSuccess || (code =? 0) then (true, s)
      else (false, s)
  end.

(** The loop of [isAuthenticated] over the [userdata] entries that hold a
    [localconfig.vdf]: each one triggers a verification. *)
Fixpoint verify_userdata (n : nat) (s : state) : bool * state :=
  match n with
  | O => (false, s)
  | S k =>
      let '(isActive, s) := verifySessionActive s in
      if isActive then (true, session_ok s) else verify_userdata k s
  end.

(** [isAuthenticated()] *)
Definition isAuthenticated (s : state) : bool * state :=
  if sessionValid (self s) &&
     (now s - lastSessionCheck (self s) <? sessionCheckInterval (self s))
  then (true, s)
  else if String.eqb (steamUsername (self s)) "anonymous"
  then (true, session_ok s)
  else
    let '(found, s) :=
      if saved_login s then
        let '(isActive, s) := verifySessionActive s in
        if isActive then (true, session_ok s) else (false, s)
      else (false, s) in
    if found then (true, s)
    else
      let '(found, s) := verify_userdata (userdata_configs s) s in
      if found then (true, s)
      else (false, set_self (mark_session false) s).

(** [downloadWithCachedSession(workshopId, downloadPath, appId)] *)
Definition downloadWithCachedSession (workshopId downloadPath appId : string)
    (s : state) : promise result * state :=
  let '(p, s) :=
    spawn ["+@ShutdownOnFailedCommand"; "0"; "+force_install_dir"; downloadPath;
           "+login"; steamUsername (self s);
           "+workshop_download_item"; appId; workshopId; "+quit"]
          (timeout (self s)) s in
  let needsReauth :=
    seen ["Steam Guard"; "Two-factor"; "Invalid Password"; "Login Failure"] (stdout p) in
  let hasError :=
    seen ["ERROR!"; "failed (Failure)"; "No subscription"; "Access Denied"] (stdout p) in
  match ends p with
  | TimedOut => (Rejected "Download timeout", s)
  | SpawnError message => (Rejected message, s)
  | Closed code =>
      if needsReauth then
        (Rejected "SESSION_EXPIRED", set_self (mark_session false) s)
      else
        let expected := expectedPath downloadPath appId workshopId in
        if has_content (fs s) expected then
          (Resolved {| success := true; method := "cached_session";
                       path := expected; output := output_of (stdout p) |}, s)
        else
          (Rejected ("Download failed: " +:+
                     (if hasError then "SteamCMD error" else "No content found")), s)
  end.

(** [downloadWithFullLogin(workshopId, downloadPath, appId)] *)
Definition downloadWithFullLogin (workshopId downloadPath appId : string)
    (s : state) : promise result * state :=
  let '(p, s) :=
    spawn ["+@ShutdownOnFailedCommand"; "0"; "+force_install_dir"; downloadPath;
           "+login"; steamUsername (self s); steamPassword (self s);
           "+workshop_download_item"; appId; workshopId; "+quit"]
          (timeout (self s)) s in
  let needsSteamGuard := seen ["Steam Guard"; "Two-factor"] (stdout p) in
  match ends p with
  | TimedOut => (Rejected "Download timeout", s)
  | SpawnError message => (Rejected message, s)
  | Closed code =>
      if needsSteamGuard then (Rejected "STEAM_GUARD_REQUIRED", s)
      else
        let expected := expectedPath downloadPath appId workshopId in
        if has_content (fs s) expected then
          (Resolved {| success := true; method := "full_login";
                       path := expected; output := output_of (stdout p) |},
           session_ok s)
        else (Rejected "Download failed", s)
  end.

(** [downloadAnonymous(workshopId, downloadPath, appId)] *)
Definition downloadAnonymous (workshopId downloadPath appId : string)
    (s : state) : promise result * state :=
  let '(p, s) :=
    spawn ["+force_install_dir"; downloadPath; "+login"; "anonymous";
           "+workshop_download_item"; appId; workshopId; "+quit"]
          (timeout (self s)) s in
  let hasError := seen ["ERROR!"; "No subscription"] (stdout p) in
  match ends p with
  | TimedOut => (Rejected "Download timeout", s)
  | SpawnError message => (Rejected message, s)
  | Closed code =>
      let expected := expectedPath downloadPath appId workshopId in
      if has_content (fs s) expected then
        (Resolved {| success := true; method := "anonymous";
                     path := expected; output := output_of (stdout p) |}, s)
      else if hasError then
        (Rejected "Anonymous download failed - item may require Steam account", s)
      else (Rejected "No content downloaded", s)
  end.

(** The method [downloadWorkshopItem(workshopId, downloadPath, appId)]:
    cached session first, then a full login for a named account, else an
    anonymous download. *)
Definition downloadWorkshopItem (workshopId downloadPath appId : string)
    (s : state) : promise result * state :=
  let '(isAuth, s) := isAuthenticated s in
  let full_or_anonymous (s : state) :=
    if negb (String.eqb (steamUsername (self s)) "anonymous")
    then downloadWithFullLogin workshopId downloadPath appId s
    else downloadAnonymous workshopId downloadPath appId s in
  if isAuth then
    match downloadWithCachedSession workshopId downloadPath appId s with
    | (Resolved r, s) => (Resolved r, s)
    | (Rejected message, s) =>
        if String.eqb message "SESSION_EXPIRED"
        then full_or_anonymous (set_self (mark_session false) s)
        else (Rejected message, s)
    end
  else full_or_anonymous s.

(** The test that ends the retry loop early. *)
Definition gives_up (message : string) : bool :=
  JS.includes message "STEAM_GUARD_REQUIRED".

(** The body of the [for] loop of [retryDownload], from attempt number
    [attempt] on; [remaining] counts the iterations left and [lastError]
    is the message of the last failure. *)
Fixpoint retry_from (remaining : nat) (attempt : Z) (lastError : string)
    (workshopId downloadPath appId : string) (s : state) : promise result * state :=
  match remaining with
  | O =>
      (Rejected ("Failed after " +:+ pretty (retryCount (self s)) +:+
                 " attempts. Last error: " +:+ lastError), s)
  | S remaining' =>
      let s := emit (Attempt attempt) s in
      let partialPath := JS.path_join downloadPath "steamapps" in
      let s :=
        if (1 <? attempt) && Fs.existsSync (fs s) partialPath
        then emit (Remove partialPath) (set_fs (λ fs, Fs.remove fs partialPath) s)
        else s in
      let '(r, s) := downloadWorkshopItem workshopId downloadPath appId s in
      let verdict :=
        match r with
        | Resolved result =>
            if success result && JS.truthy (path result) && has_content (fs s) (path result)
            then Resolved result
            else Rejected "Download verification failed"
        | Rejected message => Rejected message
        end in
      match verdict with
      | Resolved result => (Resolved result, s)
      | Rejected message =>
          let s := emit (Failure attempt message) s in
          if gives_up message then (Rejected message, s)
          else
            let s :=
              if attempt <? retryCount (self s)
              then advance (retryDelay (self s) * attempt)
                     (emit (Sleep (retryDelay (self s) * attempt)) s)
              else s in
            retry_from remaining' (attempt + 1) message workshopId downloadPath appId s
      end
  end.

(** [retryDownload(workshopId, downloadPath, appId)] *)
Definition retryDownload (workshopId downloadPath appId : string)
    (s : state) : promise result * state :=
  retry_from (Z.to_nat (retryCount (self s))) 1 "" workshopId downloadPath appId s.

(** The attempt numbers announced in a trace, and the waits in it. *)
Definition attempts_of (t : list effect) : list Z :=
  omap (λ ef, match ef with Attempt n => Some n | _ => None end) t.

Definition sleeps_of (t : list effect) : list Z :=
  omap (λ ef, match ef with Sleep ms => Some ms | _ => None end) t.

Definition is_spawn (ef : effect) : Prop :=
  match ef with Spawn _ => True | _ => False end.

(** From [s] to [s'] the retry parameters are kept and the trace grows
    by process starts only. *)
Definition quietly (s s' : state) : Prop :=
  retryCount (self s') = retryCount (self s)
  ∧ retryDelay (self s') = retryDelay (self s)
  ∧ ∃ more, trace s' = (trace s ++ more)%list ∧ Forall is_spawn more.

(** The retry policy, read off a trace: a failure whose message makes the
    loop give up ends the trace; any other failure of an attempt before
    the [count]-th is followed by a wait of [delay] times the attempt
    number and by the next attempt; a failure of the [count]-th attempt
    ends the trace. *)
Fixpoint obeys (count delay : Z) (t : list effect) : bool :=
  match t with
  | [] => true
  | Failure k message :: rest =>
      (if gives_up message then bool_decide (rest = [])
       else if k <? count then
         match rest with
         | Sleep ms :: Attempt k' :: _ => (ms =? delay * k) && (k' =? k + 1)
         | _ => false
         end
       else bool_decide (rest = []))
      && obeys count delay rest
  | _ :: rest => obeys count delay rest
  end.

End Adapter.

(** ** The server: job table, request handlers, sweeper *)

Module Status.

(** The values of the [status] field of a job record. *)
Inductive t : Type :=
| starting
| preparing
| downloading
| creating_archive
| completed
| error.

#[global] Instance eq_dec : EqDecision t.
Proof. solve_decision. Defined.

End Status.

Module Server.

Local Open Scope Z_scope.

(** The environment variables the server reads.  For the numeric ones the
    field holds what [parseInt] returns, [None] standing for [NaN] (also
    when the variable is unset). *)
Record env : Type := {
  MAX_CONCURRENT_DOWNLOADS : option Z;
  DOWNLOAD_TIMEOUT : option Z;
  DOWNLOAD_PATH : option string;
  NEXT_PUBLIC_API_URL : option string;
  PORT : string;
  CLEANUP_AFTER_DOWNLOAD : option string;
  MAX_DOWNLOAD_SIZE : option string;
  DAYZ_APP_ID : option string;
  STEAM_USERNAME : option string;
  STEAM_PASSWORD : option string
}.

(** What [fetchWorkshopInfo] returns, restricted to the fields the server
    reads. *)
Record workshop_info : Type := {
  title : string;
  author : string;
  isValid : bool;
  isPrivate : bool;
  requiresSubscription : bool;
  isDayZ : bool;
  appId : string
}.

#[global] Instance workshop_info_eq_dec : EqDecision workshop_info.
Proof. solve_decision. Defined.

(** A job record of [activeDownloads].  The fields added after creation
    are optional; times are epoch milliseconds. *)
Record download : Type := {
  id : string;
  workshopId : string;
  status : Status.t;
  progress : Z;
  startTime : Z;
  workshopInfo : workshop_info;
  downloadPath : string;
  zipPath : string;
  downloadUrl : option string;
  fileSize : option Z;
  completedTime : option Z;
  method : option string;
  error : option string;
  errorTime : option Z
}.

#[global] Instance download_eq_dec : EqDecision download.
Proof. solve_decision. Defined.

(** The object spread over a record by [updateProgress], [updateStatus]
    and the error path: the keys it carries. *)
Record patch : Type := {
  p_status : option Status.t;
  p_progress : option Z;
  p_zipPath : option string;
  p_downloadUrl : option string;
  p_fileSize : option Z;
  p_completedTime : option Z;
  p_method : option string;
  p_error : option string;
  p_errorTime : option Z
}.

#[global] Instance patch_eq_dec : EqDecision patch.
Proof. solve_decision. Defined.

Definition progress_patch (p : Z) : patch :=
  {| p_status := None; p_progress := Some p; p_zipPath := None; p_downloadUrl := None;
     p_fileSize := None; p_completedTime := None; p_method := None; p_error := None;
     p_errorTime := None |}.

(** [{ status, ...additionalData }] *)
Definition with_status (s : Status.t) (additionalData : patch) : patch :=
  {| p_status := Some (default s (p_status additionalData));
     p_progress := p_progress additionalData; p_zipPath := p_zipPath additionalData;
     p_downloadUrl := p_downloadUrl additionalData;
     p_fileSize := p_fileSize additionalData;
     p_completedTime := p_completedTime additionalData;
     p_method := p_method additionalData; p_error := p_error additionalData;
     p_errorTime := p_errorTime additionalData |}.

Definition over {A} (new : option A) (old : option A) : option A :=
  match new with Some v => Some v | None => old end.

(** [{ ...download, ...p }] *)
Definition spread (d : download) (p : patch) : download :=
  {| id := id d; workshopId := workshopId d;
     status := default (status d) (p_status p);
     progress := default (progress d) (p_progress p);
     startTime := startTime d; workshopInfo := workshopInfo d;
     downloadPath := downloadPath d;
     zipPath := default (zipPath d) (p_zipPath p);
     downloadUrl := over (p_downloadUrl p) (downloadUrl d);
     fileSize := over (p_fileSize p) (fileSize d);
     completedTime := over (p_completedTime p) (completedTime d);
     method := over (p_method p) (method d);
     error := over (p_error p) (error d);
     errorTime := over (p_errorTime p) (errorTime d) |}.

(** The fields handed to [updateDownloadInHistory]. *)
Inductive fields : Type :=
| Patch (p : patch)
| Delivered (downloadCompletedTime finalDownloadSize : Z)
| Cleaned (cleanedUpTime : Z) (reason : option string)
| AutoCleaned (autoCleanedTime : Z).

(** The calls made to the persistence layer. *)
Inductive db_call : Type :=
| addDownloadToHistory (downloadData : download)
| updateDownloadInHistory (downloadId : string) (f : fields).

#[global] Instance fields_eq_dec : EqDecision fields.
Proof. solve_decision. Defined.

#[global] Instance db_call_eq_dec : EqDecision db_call.
Proof. solve_decision. Defined.

(** The mutable state of the server process and the disk.  [db] lists the
    persistence calls, newest first. *)
Record state : Type := {
  activeDownloads : gmap string download;
  downloadCounter : Z;
  cleanupQueue : gset string;
  fs : Fs.t;
  db : list db_call
}.

#[global] Instance state_eq_dec : EqDecision state.
Proof. solve_decision. Defined.

Definition initial : state :=
  {| activeDownloads := ∅; downloadCounter := 0; cleanupQueue := ∅; fs := ∅; db := [] |}.

Definition set_downloads (f : gmap string download → gmap string download)
    (st : state) : state :=
  {| activeDownloads := f (activeDownloads st); downloadCounter := downloadCounter st;
     cleanupQueue := cleanupQueue st; fs := fs st; db := db st |}.

Definition set_fs (f : Fs.t → Fs.t) (st : state) : state :=
  {| activeDownloads := activeDownloads st; downloadCounter := downloadCounter st;
     cleanupQueue := cleanupQueue st; fs := f (fs st); db := db st |}.

Definition record_call (c : db_call) (st : state) : state :=
  {| activeDownloads := activeDownloads st; downloadCounter := downloadCounter st;
     cleanupQueue := cleanupQueue st; fs := fs st; db := c :: db st |}.

(** [activeDownloads.size] *)
Definition occupancy (st : state) : Z := Z.of_nat (size (activeDownloads st)).

(** An HTTP response: status code and body. *)
Inductive body : Type :=
| Error (message : string)
| TooMany (message : string) (active : Z) (maximum : Z)
| Refused (message : string) (info : workshop_info)
| Started (downloadId workshop : string) (info : workshop_info)
    (message statusUrl maxFileSize : string)
| Snapshot (d : download)
| UrlOf (downloadId workshop url : string) (size : option Z) (s : Status.t)
| Stream (file : string) (range : option string) (size : Z)
| Message (message downloadId : string)
| Cleared (message : string) (clearedCount : Z).

Record response : Type := { code : Z; json : body }.

#[global] Instance body_eq_dec : EqDecision body.
Proof. solve_decision. Defined.

#[global] Instance response_eq_dec : EqDecision response.
Proof. solve_decision. Defined.

(** [url.match(/id=(\d+)/)]: the digits after the leftmost ["id="] that
    is followed by a digit. *)
Fixpoint extractWorkshopId (url : string) : option string :=
  match url with
  | EmptyString => None
  | String _ rest =>
      if String.prefix "id=" url && JS.truthy (JS.take_digits (JS.drop_chars 3 url))
      then Some (JS.take_digits (JS.drop_chars 3 url))
      else extractWorkshopId rest
  end.

(** [parseInt(process.env.MAX_CONCURRENT_DOWNLOADS) || 3] *)
Definition maxConcurrent (e : env) : Z :=
  JS.num_or_default (MAX_CONCURRENT_DOWNLOADS e) 3.

(** [generateDownloadUrl(downloadId, workshopId)] *)
Definition generateDownloadUrl (e : env) (downloadId workshop : string) : string :=
  JS.or_default (NEXT_PUBLIC_API_URL e) ("http://localhost:" +:+ PORT e)
  +:+ "/api/download/" +:+ downloadId +:+ "/file".

(** [cleanupFiles(paths, force)] *)
Definition cleanupFiles (e : env) (paths : list string) (force : bool)
    (st : state) : state :=
  let shouldCleanup := force || bool_decide (CLEANUP_AFTER_DOWNLOAD e = Some "true") in
  if shouldCleanup then
    foldl (λ st filePath,
             if Fs.existsSync (fs st) filePath then
               {| activeDownloads := activeDownloads st;
                  downloadCounter := downloadCounter st;
                  cleanupQueue := cleanupQueue st ∖ {[filePath]};
                  fs := Fs.remove (fs st) filePath; db := db st |}
             else st)
          st paths
  else st.

(** The [url] member of the request body: absent, a string, or some other
    JSON value (of which only the truthiness matters before the handler
    calls [url.match]). *)
Inductive url_field : Type :=
| Missing
| Text (url : string)
| NotText (truthy : bool).

(** [POST /api/download], up to the admission check: either the response
    that ends the request or the workshop id of a request that goes on. *)
Definition admission (e : env) (url : url_field) (st : state) : response + string :=
  match url with
  | Missing | NotText false => inl {| code := 400; json := Error "URL is required" |}
  | NotText true =>
      inl {| code := 500;
             json := Error "Internal server error: url.match is not a function" |}
  | Text u =>
      if negb (JS.truthy u) then inl {| code := 400; json := Error "URL is required" |}
      else
        match extractWorkshopId u with
        | None => inl {| code := 400; json := Error "Invalid Steam Workshop URL" |}
        | Some workshop =>
            if maxConcurrent e <=? occupancy st then
              inl {| code := 429;
                     json := TooMany "Too many concurrent downloads. Please try again later."
                                     (occupancy st) (maxConcurrent e) |}
            else inr workshop
        end
  end.

(** The variables the asynchronous pipeline of a job closes over. *)
Record job : Type := {
  job_downloadId : string;
  job_workshopId : string;
  job_downloadPath : string;
  job_zipPath : string
}.

(** [POST /api/download] after [fetchWorkshopInfo] has answered [info] at
    time [now]: the validity checks, then the creation of the record. *)
Definition start_job (e : env) (now : Z) (workshop : string) (info : workshop_info)
    (st : state) : response * state * option job :=
  if negb (isValid info) then
    ({| code := 400; json := Refused "Workshop item not found or not accessible" info |},
     st, None)
  else if negb (isDayZ info) then
    ({| code := 400; json := Refused "This is not a DayZ workshop item" info |}, st, None)
  else
    let counter := downloadCounter st + 1 in
    let downloadId := "download_" +:+ pretty now +:+ "_" +:+ pretty counter in
    let downloadPath :=
      JS.path_join (JS.or_default (DOWNLOAD_PATH e) "/tmp/dayz-workshop-downloads")
                   downloadId in
    let zipPath := JS.path_join downloadPath (workshop +:+ ".zip") in
    let downloadData :=
      {| id := downloadId; workshopId := workshop; status := Status.starting;
         progress := 0; startTime := now; workshopInfo := info;
         downloadPath := downloadPath; zipPath := zipPath;
         downloadUrl := None; fileSize := None; completedTime := None;
         method := None; error := None; errorTime := None |} in
    ({| code := 200;
        json := Started downloadId workshop info "Download started"
                        ("/api/status/" +:+ downloadId)
                        (JS.or_default (MAX_DOWNLOAD_SIZE e) "10737418240") |},
     {| activeDownloads := <[downloadId := downloadData]> (activeDownloads st);
        downloadCounter := counter;
        cleanupQueue := {[downloadPath]} ∪ cleanupQueue st;
        fs := fs st;
        db := addDownloadToHistory downloadData :: db st |},
     Some {| job_downloadId := downloadId; job_workshopId := workshop;
             job_downloadPath := downloadPath; job_zipPath := zipPath |}).

(** [POST /api/download] with no other request served in between. *)
Definition post_download (e : env) (now : Z) (url : url_field) (info : workshop_info)
    (st : state) : response * state * option job :=
  match admission e url st with
  | inl r => (r, st, None)
  | inr workshop => start_job e now workshop info st
  end.

(** [GET /api/status/:downloadId].  For a completed job the handler
    assigns [downloadUrl] on the stored object itself, then serialises
    that object. *)
Definition get_status (e : env) (downloadId : string) (st : state) : response * state :=
  match activeDownloads st !! downloadId with
  | None => ({| code := 404; json := Error "Download not found" |}, st)
  | Some d =>
      if bool_decide (status d = Status.completed) && JS.truthy (zipPath d) then
        let d' :=
          spread d {| p_status := None; p_progress := None; p_zipPath := None;
                      p_downloadUrl := Some (generateDownloadUrl e downloadId (workshopId d));
                      p_fileSize := None; p_completedTime := None; p_method := None;
                      p_error := None; p_errorTime := None |} in
        ({| code := 200; json := Snapshot d' |}, set_downloads (insert downloadId d') st)
      else ({| code := 200; json := Snapshot d |}, st)
  end.

(** [GET /api/download/:downloadId/url] *)
Definition get_url (e : env) (downloadId : string) (st : state) : response :=
  match activeDownloads st !! downloadId with
  | None => {| code := 404; json := Error "Download not found" |}
  | Some d =>
      if negb (bool_decide (status d = Status.completed)) then
        {| code := 400; json := Error "Download not completed yet" |}
      else
        {| code := 200;
           json := UrlOf downloadId (workshopId d)
                         (generateDownloadUrl e downloadId (workshopId d))
                         (fileSize d) (status d) |}
  end.

(** The [start] and [end] that the handler reads off a [Range] header
    for a file of [size] bytes; [None] stands for [NaN].  The header is a
    string of code units below 256, as Node hands it over. *)
Definition range_bounds (range : string) (size : Z) : option Z * option Z :=
  let parts := JS.split "-" (JS.drop_first "bytes=" range) in
  let start := JS.parseInt (default "" (parts !! 0%nat)) in
  let end_ :=
    match parts !! 1%nat with
    | Some part => if JS.truthy part then JS.parseInt part else Some (size - 1)
    | None => Some (size - 1)
    end in
  (start, end_).

(** Whether [fs.createReadStream(path, { start, end })] accepts its
    bounds.  Node checks them when the stream is created: each must be
    an integer from 0 to 2^53 - 1, and [start] must not exceed [end];
    otherwise the call throws. *)
Definition readable (bounds : option Z * option Z) : bool :=
  match bounds with
  | (Some start, Some end_) =>
      (0 <=? start) && (start <=? 2 ^ 53 - 1) && (0 <=? end_) && (end_ <=? 2 ^ 53 - 1)
      && (start <=? end_)
  | _ => false
  end.

(** [GET /api/download/:downloadId/file]: the request itself.  A request
    without a (non-empty) [Range] header is answered with 200 and the
    stream of [zipPath].  A request with one is answered with 206 and a
    stream of the part asked for; when [fs.createReadStream] throws on
    the bounds, the [catch] of the handler answers 500. *)
Definition get_file (downloadId : string) (range : option string) (st : state) : response :=
  match activeDownloads st !! downloadId with
  | None => {| code := 404; json := Error "Download not found" |}
  | Some d =>
      if negb (bool_decide (status d = Status.completed)) then
        {| code := 400; json := Error "Download not completed yet" |}
      else if negb (Fs.existsSync (fs st) (zipPath d)) then
        {| code := 404; json := Error "File not found" |}
      else
        match range with
        | Some r =>
            if JS.truthy r then
              if readable (range_bounds r (Fs.stat_size (fs st) (zipPath d)))
              then {| code := 206; json := Stream (zipPath d) (Some r)
                                                  (Fs.stat_size (fs st) (zipPath d)) |}
              else {| code := 500; json := Error "Internal server error" |}
            else {| code := 200; json := Stream (zipPath d) None
                                                (Fs.stat_size (fs st) (zipPath d)) |}
        | None => {| code := 200; json := Stream (zipPath d) None
                                                 (Fs.stat_size (fs st) (zipPath d)) |}
        end
  end.

(** The [finish] handler that a request without range registers: run
    when the whole file has been sent. *)
Definition file_finished (e : env) (now : Z) (downloadId zip : string) (downloaded : Z)
    (st : state) : state :=
  let st := record_call (updateDownloadInHistory downloadId (Delivered now downloaded)) st in
  let st := cleanupFiles e [JS.dirname zip] false st in
  set_downloads (delete downloadId) st.

(** A whole request for the file followed, for a request without range
    that was answered with the stream, by the end of the delivery. *)
Definition deliver (e : env) (now : Z) (downloadId : string) (range : option string)
    (downloaded : Z) (st : state) : response * state :=
  let r := get_file downloadId range st in
  match json r with
  | Stream zip None _ => (r, file_finished e now downloadId zip downloaded st)
  | _ => (r, st)
  end.

(** [DELETE /api/cleanup/:downloadId] *)
Definition cleanup (e : env) (now : Z) (downloadId : string) (st : state) : response * state :=
  match activeDownloads st !! downloadId with
  | Some d =>
      if JS.truthy (downloadPath d) then
        let st := cleanupFiles e [downloadPath d] true st in
        let st := set_downloads (delete downloadId) st in
        let st := record_call
                    (updateDownloadInHistory downloadId (Cleaned now None)) st in
        ({| code := 200; json := Message "Cleanup completed" downloadId |}, st)
      else ({| code := 404; json := Error "Download not found" |}, st)
  | None => ({| code := 404; json := Error "Download not found" |}, st)
  end.

(** [POST /api/clear] *)
Definition clear (e : env) (now : Z) (st : state) : response * state :=
  let cleared := occupancy st in
  let st :=
    foldl (λ st entry,
             let st := if JS.truthy (downloadPath entry.2)
                       then cleanupFiles e [downloadPath entry.2] true st else st in
             record_call (updateDownloadInHistory entry.1
                            (Cleaned now (Some "manual_clear"))) st)
          st (map_to_list (activeDownloads st)) in
  ({| code := 200; json := Cleared "All downloads cleared and cleaned up" cleared |},
   {| activeDownloads := ∅; downloadCounter := 0; cleanupQueue := ∅;
      fs := fs st; db := db st |}).

Definition maxAge : Z := 7200000.

(** One run of the periodic cleanup at time [now]. *)
Definition sweep (e : env) (now : Z) (st : state) : state :=
  foldl (λ st entry,
           if maxAge <? now - startTime entry.2 then
             let st := if JS.truthy (downloadPath entry.2)
                       then cleanupFiles e [downloadPath entry.2] true st else st in
             let st := record_call
                         (updateDownloadInHistory entry.1 (AutoCleaned now)) st in
             set_downloads (delete entry.1) st
           else st)
        st (map_to_list (activeDownloads st)).

(** *** The asynchronous pipeline of a job *)

(** [updateProgress(progress)] *)
Definition updateProgress (j : job) (p : Z) (st : state) : state :=
  match activeDownloads st !! job_downloadId j with
  | Some d =>
      let change := progress_patch (Z.min p 100) in
      record_call (updateDownloadInHistory (job_downloadId j) (Patch change))
        (set_downloads (insert (job_downloadId j) (spread d change)) st)
  | None => st
  end.

(** [updateStatus(status, additionalData)] *)
Definition updateStatus (j : job) (s : Status.t) (additionalData : patch)
    (st : state) : state :=
  match activeDownloads st !! job_downloadId j with
  | Some d =>
      let change := with_status s additionalData in
      record_call (updateDownloadInHistory (job_downloadId j) (Patch change))
        (set_downloads (insert (job_downloadId j) (spread d change)) st)
  | None => st
  end.

(** The [catch] block of the pipeline: the workspace is removed, the
    record (if it is still there) becomes an error record. *)
Definition fail (e : env) (now : Z) (j : job) (message : string) (st : state) : state :=
  let st :=
    match activeDownloads st !! job_downloadId j with
    | Some d =>
        if JS.truthy (downloadPath d) then cleanupFiles e [downloadPath d] true st else st
    | None => st
    end in
  let errorData :=
    {| p_status := Some Status.error; p_progress := None; p_zipPath := None;
       p_downloadUrl := None; p_fileSize := None; p_completedTime := None;
       p_method := None; p_error := Some message; p_errorTime := Some now |} in
  let st :=
    match activeDownloads st !! job_downloadId j with
    | Some d => set_downloads (insert (job_downloadId j) (spread d errorData)) st
    | None => st
    end in
  record_call (updateDownloadInHistory (job_downloadId j) (Patch errorData)) st.

(** How the archiver run ends: the output stream closes with
    [archive.pointer()] bytes written, an [error] (or a warning other
    than ENOENT) is raised, or the 30 minute timer fires first. *)
Inductive archive_end : Type :=
| ArchiveClosed (pointer : Z)
| ArchiveFailed (message : string)
| ArchiveTimeout.

(** One run of the archiver: its [progress] events
    ([entries.processed], [entries.total]) in order, how it ends, and the
    size of the file it leaves at the output path ([None]: no file). *)
Record archive_run : Type := {
  entries : list (Z * Z);
  finish : archive_end;
  written : option Z
}.

(** What the outside decides during one pipeline: the path found by
    [checkSteamCMD], the clock at the start, the runs of the steam client,
    the state of the steam directory, and the archiver run. *)
Record inputs : Type := {
  steamcmd : option string;
  started : Z;
  runs : list Adapter.proc;
  saved_login : bool;
  userdata_configs : nat;
  archive : archive_run
}.

(** What [downloadWorkshopItem] resolves with. *)
Record fetched : Type := {
  fetched_success : bool;
  fetched_output : string;
  fetched_method : option string
}.

(** The downloader that [downloadWorkshopItem] creates, in the world of
    the pipeline. *)
Definition downloader_world (e : env) (steamcmdPath : string) (i : inputs)
    (st : state) : Adapter.state :=
  {| Adapter.self :=
       Adapter.new steamcmdPath (JS.or_default (STEAM_USERNAME e) "anonymous")
                   (JS.or_default (STEAM_PASSWORD e) "");
     Adapter.fs := fs st; Adapter.script := runs i; Adapter.now := started i;
     Adapter.saved_login := saved_login i;
     Adapter.userdata_configs := userdata_configs i;
     Adapter.effects := [] |}.

(** The [data] handler of the fallback run: a chunk that mentions
    ["downloading"] bumps the counter by two, up to 55, and reports it. *)
Definition fallback_chunk (progressCallback : Z → state → state)
    (acc : state * Z) (dataStr : string) : state * Z :=
  if JS.includes dataStr "downloading" then
    let progressCounter := Z.min (acc.2 + 2) 55 in
    (progressCallback progressCounter acc.1, progressCounter)
  else acc.

(** The function [downloadWorkshopItem(workshopId, downloadPath,
    progressCallback)] of the server: the downloader's retry loop and,
    when that fails, the original single invocation.  The third component
    is the clock when it settles. *)
Definition downloadWorkshopItem (e : env) (workshop downloadPath : string)
    (progressCallback : Z → state → state) (i : inputs) (st : state)
    : Adapter.promise fetched * state * Z :=
  match steamcmd i with
  | None =>
      (Adapter.Rejected "SteamCMD not found. Please install SteamCMD first.", st, started i)
  | Some steamcmdPath =>
      let user := JS.or_default (STEAM_USERNAME e) "anonymous" in
      let password := JS.or_default (STEAM_PASSWORD e) "" in
      let app := JS.or_default (DAYZ_APP_ID e) "221100" in
      let st := progressCallback 30 st in
      match Adapter.retryDownload workshop downloadPath app
              (downloader_world e steamcmdPath i st) with
      | (Adapter.Resolved result, a) =>
          let st := set_fs (λ _, Adapter.fs a) st in
          let st := progressCallback 60 st in
          (Adapter.Resolved {| fetched_success := true;
                               fetched_output := Adapter.output result;
                               fetched_method := Some (Adapter.method result) |},
           st, Adapter.now a)
      | (Adapter.Rejected _, a) =>
          let st := set_fs (λ _, Adapter.fs a) st in
          let st := progressCallback 35 st in
          let '(p, a) :=
            Adapter.spawn ["+force_install_dir"; downloadPath;
                           "+login"; user; password;
                           "+workshop_download_item"; app; workshop; "+quit"]
                          (JS.num_or_default (DOWNLOAD_TIMEOUT e) 7200000) a in
          let st := set_fs (λ _, Adapter.fs a) st in
          let st := (foldl (fallback_chunk progressCallback) (st, 35) (Adapter.stdout p)).1 in
          let hasError :=
            Adapter.seen ["ERROR!"; "failed (Failure)"; "No subscription";
                          "Access Denied"; "Item not found"] (Adapter.stdout p) in
          match Adapter.ends p with
          | Adapter.TimedOut =>
              (Adapter.Rejected
                 "Download timeout - The workshop item may be too large or require subscription",
               st, Adapter.now a)
          | Adapter.SpawnError message => (Adapter.Rejected message, st, Adapter.now a)
          | Adapter.Closed code =>
              let st := progressCallback 60 st in
              if negb (code =? 0) || hasError then
                (Adapter.Rejected
                   "SteamCMD failed: Workshop item may require subscription, be private, or not exist. Try using a Steam account instead of anonymous login.",
                 st, Adapter.now a)
              else
                (Adapter.Resolved {| fetched_success := true;
                                     fetched_output := Adapter.output_of (Adapter.stdout p);
                                     fetched_method := None |},
                 st, Adapter.now a)
          end
      end
  end.

(** The check "Verify downloaded content" of the pipeline: the expected
    directory exists, or one of the search paths holds something. *)
Definition content_downloaded (e : env) (j : job) (fs : Fs.t) : bool :=
  let expected :=
    Adapter.expectedPath (job_downloadPath j) (JS.or_default (DAYZ_APP_ID e) "221100")
                         (job_workshopId j) in
  Fs.existsSync fs expected ||
  existsb (λ searchPath, Fs.existsSync fs searchPath && Fs.has_entries fs searchPath)
          [JS.path_join (job_downloadPath j) "steamapps";
           JS.path_join (job_downloadPath j) "workshop";
           job_downloadPath j].

(** The percentage reported for a [progress] event of the archiver:
    [Math.min(70 + Math.floor((processed / total) * 25), 95)], with the
    quotient and the product rounded as the source rounds them. *)
Definition archive_percent (processed total : Z) : Z :=
  Z.min (70 + Double.floor (Double.times (Double.divide processed total) 25)) 95.

(** The [progress] handler of [createZipArchive]. *)
Definition archive_progress (progressCallback : Z → state → state)
    (st : state) (event : Z * Z) : state :=
  if 0 <? event.2 then progressCallback (archive_percent event.1 event.2) st else st.

(** The directory [createZipArchive] archives: the expected one when it
    exists (an error when it is empty), else the first alternative that
    exists and is not empty. *)
Definition archive_source (e : env) (sourcePath workshop : string) (fs : Fs.t)
    : string + string :=
  let app := JS.or_default (DAYZ_APP_ID e) "221100" in
  let workshopContentPath := Adapter.expectedPath sourcePath app workshop in
  if Fs.existsSync fs workshopContentPath then
    if Fs.has_entries fs workshopContentPath then inl workshopContentPath
    else inr "Workshop content folder is empty"
  else
    match
      find (λ altPath, Fs.existsSync fs altPath && Fs.has_entries fs altPath)
           [JS.path_join (JS.path_join (JS.path_join (JS.path_join sourcePath
              "steamapps") "workshop") "content") workshop;
            JS.path_join (JS.path_join (JS.path_join (JS.path_join sourcePath
              "workshop") "content") app) workshop;
            JS.path_join (JS.path_join sourcePath "content") workshop;
            sourcePath]
    with
    | Some altPath => inl altPath
    | None => inr "No workshop content found"
    end.

(** [createZipArchive(sourcePath, outputPath, workshopId, progressCallback)] *)
Definition createZipArchive (e : env) (sourcePath outputPath workshop : string)
    (progressCallback : Z → state → state) (run : archive_run) (st : state)
    : Adapter.promise string * state :=
  match archive_source e sourcePath workshop (fs st) with
  | inr message => (Adapter.Rejected message, st)
  | inl _ =>
      let st := foldl (archive_progress progressCallback) st (entries run) in
      let st :=
        set_fs (λ fs, match written run with
                      | Some size => <[outputPath := Fs.File size]> fs
                      | None => delete outputPath fs
                      end) st in
      match finish run with
      | ArchiveClosed size =>
          if 0 <? size then (Adapter.Resolved outputPath, progressCallback 100 st)
          else (Adapter.Rejected "Created ZIP file is empty", st)
      | ArchiveFailed message => (Adapter.Rejected message, st)
      | ArchiveTimeout =>
          (Adapter.Rejected "Archive creation timeout - file may be too large", st)
      end
  end.

Definition minZipSize : Z := 512.

(** The end of the pipeline, from the resolution of [createZipArchive] to
    the [completed] record; it runs without interruption. *)
Definition register_archive (e : env) (now : Z) (j : job) (archivePath : string)
    (how : option string) (st : state) : state :=
  if negb (Fs.existsSync (fs st) archivePath) then
    fail e now j "ZIP file was not created" st
  else
    let size := Fs.stat_size (fs st) archivePath in
    if size <? minZipSize then
      fail e now j ("ZIP file too small (" +:+ pretty size +:+
                    " bytes) - likely empty or corrupted") st
    else
      updateStatus j Status.completed
        {| p_status := None; p_progress := Some 100; p_zipPath := Some (job_zipPath j);
           p_downloadUrl :=
             Some (generateDownloadUrl e (job_downloadId j) (job_workshopId j));
           p_fileSize := Some size; p_completedTime := Some now;
           p_method := how; p_error := None; p_errorTime := None |} st.

(** The whole pipeline of job [j], run without any other request in
    between. *)
Definition pipeline (e : env) (j : job) (i : inputs) (st : state) : state :=
  let st := updateStatus j Status.preparing (progress_patch 5) st in
  let st := set_fs (λ fs, Fs.ensureDir fs (job_downloadPath j)) st in
  let st := updateStatus j Status.downloading (progress_patch 10) st in
  match downloadWorkshopItem e (job_workshopId j) (job_downloadPath j)
          (updateProgress j) i st with
  | (Adapter.Rejected message, st, now) => fail e now j message st
  | (Adapter.Resolved downloadResult, st, now) =>
      if negb (fetched_success downloadResult) then
        fail e now j "SteamCMD download failed" st
      else if negb (content_downloaded e j (fs st)) then
        fail e now j "No workshop content was downloaded" st
      else
        let st := updateStatus j Status.creating_archive (progress_patch 65) st in
        match createZipArchive e (job_downloadPath j) (job_zipPath j) (job_workshopId j)
                (updateProgress j) (archive i) st with
        | (Adapter.Rejected message, st) => fail e now j message st
        | (Adapter.Resolved archivePath, st) =>
            register_archive e now j archivePath (fetched_method downloadResult) st
        end
  end.

(** The progress values handed to the persistence layer for job
    [downloadId], oldest first: one for each write of [progress]. *)
Definition progress_writes (downloadId : string) (st : state) : list Z :=
  omap (λ c, match c with
             | updateDownloadInHistory i (Patch p) =>
                 if String.eqb i downloadId then p_progress p else None
             | _ => None
             end)
       (rev (db st)).

(** The percentages [createZipArchive] reports for a list of archiver
    events: one for each event with a positive total. *)
Definition archive_percents (events : list (Z * Z)) : list Z :=
  map (λ event, archive_percent event.1 event.2) (filter (λ event, 0 < event.2) events).

(** From [st] to [st'] the progress values written for [downloadId] are
    extended by values that are at most [hi] and, when [given] holds, at
    least [lo] and in non-decreasing order. *)
Definition appends (given : Prop) (downloadId : string) (lo hi : Z)
    (st st' : state) : Prop :=
  ∃ new, progress_writes downloadId st' = (progress_writes downloadId st ++ new)%list
         ∧ Forall (λ p, p <= hi) new
         ∧ (given → Forall (λ p, lo <= p) new ∧ nondecreasing new = true).

(** *** The operations on the job table *)

(** Everything that reads or writes [activeDownloads]: the request
    handlers, the sweeper, and the three writers of a pipeline. *)
Inductive op : Type :=
| Submit (now : Z) (url : url_field) (info : workshop_info)
| GetStatus (downloadId : string)
| GetUrl (downloadId : string)
| GetFile (now : Z) (downloadId : string) (range : option string) (downloaded : Z)
| Cleanup (now : Z) (downloadId : string)
| Clear (now : Z)
| Sweep (now : Z)
| Progress (j : job) (p : Z)
| Preparing (j : job)
| Downloading (j : job)
| CreatingArchive (j : job)
| Register (now : Z) (j : job) (how : option string)
| Fail (now : Z) (j : job) (message : string)
| Disk (change : Fs.t → Fs.t).

Definition step (e : env) (o : op) (st : state) : state :=
  match o with
  | Submit now url info => (post_download e now url info st).1.2
  | GetStatus downloadId => (get_status e downloadId st).2
  | GetUrl _ => st
  | GetFile now downloadId range downloaded =>
      (deliver e now downloadId range downloaded st).2
  | Cleanup now downloadId => (cleanup e now downloadId st).2
  | Clear now => (clear e now st).2
  | Sweep now => sweep e now st
  | Progress j p => updateProgress j p st
  | Preparing j => updateStatus j Status.preparing (progress_patch 5) st
  | Downloading j => updateStatus j Status.downloading (progress_patch 10) st
  | CreatingArchive j => updateStatus j Status.creating_archive (progress_patch 65) st
  | Register now j how => register_archive e now j (job_zipPath j) how st
  | Fail now j message => fail e now j message st
  | Disk change => set_fs change st
  end.

(** Whether operation [o] is one of those that drop the record [d] stored
    under [downloadId]: the delivery of the whole file, an explicit
    cleanup, a clear-all, or a sweep more than two hours after the start
    of the job. *)
Definition removes (o : op) (downloadId : string) (d : download) : bool :=
  match o with
  | GetFile _ i range _ => String.eqb i downloadId && negb (JS.truthy (default "" range))
  | Cleanup _ i => String.eqb i downloadId
  | Clear _ => true
  | Sweep now => maxAge <? now - startTime d
  | _ => false
  end.

(** Every completed record carries the download URL of its own key and
    the size of an archive of at least [minZipSize] bytes. *)
Definition completed_sound (e : env) (st : state) : Prop :=
  ∀ k d, activeDownloads st !! k = Some d → status d = Status.completed →
         downloadUrl d = Some (generateDownloadUrl e k (workshopId d))
         ∧ ∃ size, fileSize d = Some size ∧ minZipSize <= size.

(** The state after a sequence of operations, from the empty server. *)
Definition run (e : env) (ops : list op) : state := foldl (λ st o, step e o st) initial ops.

(** The table holds the record of job [j], with the job's workspace as
    its [downloadPath]. *)
Definition workspace_recorded (j : job) (st : state) : Prop :=
  ∃ d, activeDownloads st !! job_downloadId j = Some d
       ∧ downloadPath d = job_downloadPath j.

(** The keys of the table are identifiers built by the submit handler,
    each with a counter that [downloadCounter] has reached. *)
Definition keys_numbered (st : state) : Prop :=
  ∀ k d, activeDownloads st !! k = Some d →
         ∃ now counter : Z,
           k = "download_" +:+ pretty now +:+ "_" +:+ pretty counter
           ∧ counter <= downloadCounter st.

End Server.

(** ** The log bus: class [WebSocketLogger] *)

Module Logger.

Local Open Scope Z_scope.

(** Record ids are the double-precision sum [Date.now() + Math.random()]. *)

(** [Date.now() + Math.random()], for the clock reading [now] (an
    integer number of milliseconds) and the draw [random] (in units of
    2^-1074, so below [Double.one]). *)
Definition fresh_id (now random : Z) : Z :=
  Double.round_double (now * Double.one + random).

(** A log record, without its free-form payload [data]. *)
Record logEntry : Type := {
  id : Z;
  timestamp : Z;
  level : string;
  source : string;
  message : string
}.

#[global] Instance logEntry_eq_dec : EqDecision logEntry.
Proof. solve_decision. Defined.

(** What is written to a socket: the history burst or a single record. *)
Inductive frame : Type :=
| HistoryFrame (logs : list logEntry)
| EntryFrame (entry : logEntry).

#[global] Instance frame_eq_dec : EqDecision frame.
Proof. solve_decision. Defined.

Inductive readyState : Type := CONNECTING | OPEN | CLOSING | CLOSED.

#[global] Instance readyState_eq_dec : EqDecision readyState.
Proof. solve_decision. Defined.

(** A socket as the logger sees it: its [readyState], whether [send]
    throws, and the frames delivered to the subscriber, oldest first. *)
Record socket : Type := {
  ready : readyState;
  failing : bool;
  inbox : list frame
}.

#[global] Instance socket_eq_dec : EqDecision socket.
Proof. solve_decision. Defined.

(** The logger object and the sockets it was handed; sockets are numbered
    in the order of connection. *)
Record logger : Type := {
  clients : gset nat;
  logHistory : list logEntry;
  maxHistorySize : nat;
  sockets : gmap nat socket
}.

Definition create : logger :=
  {| clients := ∅; logHistory := []; maxHistorySize := 1000%nat; sockets := ∅ |}.

(** [l.slice(-n)] *)
Definition slice_last {A} (n : nat) (l : list A) : list A := drop (length l - n) l.

(** [ws.send(...)]: [None] when the call throws. *)
Definition send (ws : nat) (f : frame) (st : logger) : option logger :=
  match sockets st !! ws with
  | Some sk =>
      if failing sk || negb (bool_decide (ready sk = OPEN)) then None
      else
        Some {| clients := clients st; logHistory := logHistory st;
                maxHistorySize := maxHistorySize st;
                sockets := <[ws := {| ready := ready sk; failing := failing sk;
                                      inbox := (inbox sk ++ [f])%list |}]> (sockets st) |}
  | None => None
  end.

Definition is_open (ws : nat) (st : logger) : bool :=
  match sockets st !! ws with
  | Some sk => bool_decide (ready sk = OPEN)
  | None => false
  end.

Definition drop_client (ws : nat) (st : logger) : logger :=
  {| clients := clients st ∖ {[ws]}; logHistory := logHistory st;
     maxHistorySize := maxHistorySize st; sockets := sockets st |}.

(** The body of the [forEach] of [broadcast]. *)
Definition broadcast_to (logEntry : logEntry) (st : logger) (client : nat) : logger :=
  if is_open client st then
    match send client (EntryFrame logEntry) st with
    | Some st' => st'
    | None => drop_client client st
    end
  else drop_client client st.

(** [broadcast(logEntry)] *)
Definition broadcast (logEntry : logEntry) (st : logger) : logger :=
  foldl (broadcast_to logEntry) st (elements (clients st)).

(** [log(level, source, message, data)] with the clock reading, the
    random draw and the time stamp it takes. *)
Definition log (now random stamp : Z) (lvl src msg : string) (st : logger) : logger :=
  let logEntry :=
    {| id := fresh_id now random; timestamp := stamp; level := lvl; source := src;
       message := msg |} in
  let history := (logHistory st ++ [logEntry])%list in
  let history :=
    if (maxHistorySize st <? length history)%nat
    then slice_last (maxHistorySize st) history else history in
  broadcast logEntry
    {| clients := clients st; logHistory := history;
       maxHistorySize := maxHistorySize st; sockets := sockets st |}.

(** [sendToClient(ws, level, source, message, data)] *)
Definition sendToClient (ws : nat) (now random stamp : Z) (lvl src msg : string)
    (st : logger) : logger :=
  if is_open ws st then
    let logEntry :=
      {| id := fresh_id now random; timestamp := stamp; level := lvl; source := src;
         message := msg |} in
    match send ws (EntryFrame logEntry) st with
    | Some st' => st'
    | None => st
    end
  else st.

(** The [connection] handler for a new socket, open, on which [send]
    throws when [faulty]: the client is added, the last 50 records are
    sent as one frame, then the welcome record.  An exception thrown by
    the first [send] ends the handler. *)
Definition connection (faulty : bool) (now random stamp : Z) (st : logger) : logger :=
  let ws := size (sockets st) in
  let st :=
    {| clients := {[ws]} ∪ clients st; logHistory := logHistory st;
       maxHistorySize := maxHistorySize st;
       sockets := <[ws := {| ready := OPEN; failing := faulty; inbox := [] |}]> (sockets st) |} in
  let burst :=
    if (0 <? length (logHistory st))%nat
    then send ws (HistoryFrame (slice_last 50 (logHistory st))) st
    else Some st in
  match burst with
  | None => st
  | Some st =>
      sendToClient ws now random stamp "info" "backend" "WebSocket connection established"
                   st
  end.

(** [clearHistory()]; the record it logs is kept without the decoration
    of its message. *)
Definition clearHistory (now random stamp : Z) (st : logger) : logger :=
  log now random stamp "info" "system" "Log history cleared"
    {| clients := clients st; logHistory := [];
       maxHistorySize := maxHistorySize st; sockets := sockets st |}.

(** What happens to the logger and its sockets. *)
Inductive op : Type :=
| Connect (faulty : bool) (now random stamp : Z)
| Log (now random stamp : Z) (lvl src msg : string)
| ClearHistory (now random stamp : Z)
| Closes (ws : nat)
| Faults (ws : nat)
| Degrades (ws : nat) (state : readyState) (faulty : bool).

Definition step (st : logger) (o : op) : logger :=
  match o with
  | Connect faulty now random stamp => connection faulty now random stamp st
  | Log now random stamp lvl src msg => log now random stamp lvl src msg st
  | ClearHistory now random stamp => clearHistory now random stamp st
  | Closes ws =>
      drop_client ws
        {| clients := clients st; logHistory := logHistory st;
           maxHistorySize := maxHistorySize st;
           sockets := alter (λ sk, {| ready := CLOSED; failing := failing sk;
                                      inbox := inbox sk |}) ws (sockets st) |}
  | Faults ws => drop_client ws st
  | Degrades ws state faulty =>
      {| clients := clients st; logHistory := logHistory st;
         maxHistorySize := maxHistorySize st;
         sockets := alter (λ sk, {| ready := state; failing := faulty;
                                    inbox := inbox sk |}) ws (sockets st) |}
  end.

Definition run (ops : list op) : logger := foldl step create ops.

(** The record ids a frame carries. *)
Definition frame_ids (f : frame) : list Z :=
  match f with
  | HistoryFrame logs => map id logs
  | EntryFrame entry => [id entry]
  end.

(** The record ids a subscriber has received, in order of arrival. *)
Definition received_ids (sk : socket) : list Z := flat_map frame_ids (inbox sk).

(** The ids kept in the history and those received by each subscriber
    are in non-decreasing order and at most [bound]. *)
Definition ordered_below (bound : Z) (st : logger) : Prop :=
  nondecreasing (map id (logHistory st)) = true
  ∧ Forall (λ i, i <= bound) (map id (logHistory st))
  ∧ ∀ ws sk, sockets st !! ws = Some sk →
             nondecreasing (received_ids sk) = true
             ∧ Forall (λ i, i <= bound) (received_ids sk).

(** The clock reading and the random draw an operation takes. *)
Definition reading (o : op) : option (Z * Z) :=
  match o with
  | Connect _ now random _ | Log now random _ _ _ _ | ClearHistory now random _ =>
      Some (now, random)
  | _ => None
  end.

(** Every reading of the clock is later than the one before (and than
    [last]), stays below 2^53 - 1, and every draw is in [0, 1). *)
Fixpoint ticking (last : Z) (ops : list op) : bool :=
  match ops with
  | [] => true
  | o :: rest =>
      match reading o with
      | Some (now, random) =>
          (last <? now) && (now <? 2 ^ 53 - 1) && (0 <=? random) && (random <? Double.one)
          && ticking now rest
      | None => ticking last rest
      end
  end.

End Logger.

(** ** Concrete servers, requests and runs used by the examples *)

Module Scenario.

Import Server.

Local Open Scope Z_scope.

(** No variable set: three slots, workspaces kept after delivery. *)
Definition plain : env :=
  {| MAX_CONCURRENT_DOWNLOADS := None; DOWNLOAD_TIMEOUT := None; DOWNLOAD_PATH := None;
     NEXT_PUBLIC_API_URL := None; PORT := "8080"; CLEANUP_AFTER_DOWNLOAD := None;
     MAX_DOWNLOAD_SIZE := None; DAYZ_APP_ID := None; STEAM_USERNAME := None;
     STEAM_PASSWORD := None |}.

(** [CLEANUP_AFTER_DOWNLOAD=true] *)
Definition tidy : env :=
  {| MAX_CONCURRENT_DOWNLOADS := None; DOWNLOAD_TIMEOUT := None; DOWNLOAD_PATH := None;
     NEXT_PUBLIC_API_URL := None; PORT := "8080"; CLEANUP_AFTER_DOWNLOAD := Some "true";
     MAX_DOWNLOAD_SIZE := None; DAYZ_APP_ID := None; STEAM_USERNAME := None;
     STEAM_PASSWORD := None |}.

Definition mod_info : workshop_info :=
  {| title := "Community Framework"; author := "Jacob"; isValid := true;
     isPrivate := false; requiresSubscription := false; isDayZ := true;
     appId := "221100" |}.

Definition mod_url : url_field :=
  Text "https://steamcommunity.com/sharedfiles/filedetails/?id=1559212036".

(** Three jobs admitted one after the other: the table is full. *)
Definition full : state :=
  run plain [Submit 1000 mod_url mod_info; Submit 1001 mod_url mod_info;
             Submit 1002 mod_url mod_info].

(** The job created by the first submission at time 1000. *)
Definition first_job : job :=
  {| job_downloadId := "download_1000_1"; job_workshopId := "1559212036";
     job_downloadPath := "/tmp/dayz-workshop-downloads/download_1000_1";
     job_zipPath := "/tmp/dayz-workshop-downloads/download_1000_1/1559212036.zip" |}.

(** One job, submitted, whose archive of 2048 bytes has been written and
    registered. *)
Definition one_completed : list op :=
  [Submit 1000 mod_url mod_info;
   Preparing first_job; Downloading first_job; CreatingArchive first_job;
   Disk (λ fs, <[job_zipPath first_job := Fs.File 2048]> fs);
   Register 5000 first_job (Some "anonymous")].

(** The record of [first_job] once its archive is registered. *)
Definition first_record : download :=
  {| id := "download_1000_1"; workshopId := "1559212036"; status := Status.completed;
     progress := 100; startTime := 1000; workshopInfo := mod_info;
     downloadPath := "/tmp/dayz-workshop-downloads/download_1000_1";
     zipPath := "/tmp/dayz-workshop-downloads/download_1000_1/1559212036.zip";
     downloadUrl := Some "http://localhost:8080/api/download/download_1000_1/file";
     fileSize := Some 2048; completedTime := Some 5000; method := Some "anonymous";
     error := None; errorTime := None |}.

(** The table after the first submission only. *)
Definition submitted : state := run plain [Submit 1000 mod_url mod_info].

(** A run of the steam client that reports success and leaves one file
    in the expected content directory of [first_job]. *)
Definition good_run : Adapter.proc :=
  {| Adapter.stdout :=
       ["Loading Steam API...OK"; "Downloading item 1559212036 ...";
        "Success. Downloaded item 1559212036"];
     Adapter.ends := Adapter.Closed 0;
     Adapter.leaves := λ fs,
       <["/tmp/dayz-workshop-downloads/download_1000_1/steamapps/workshop/content/221100/1559212036/mod.pbo"
         := Fs.File 4096]> fs;
     Adapter.elapsed := 60000 |}.

(** A pipeline whose archiver learns of more entries while it works:
    1 of 1, then 2 of 4, then 4 of 4. *)
Definition growing_archive : inputs :=
  {| steamcmd := Some "/opt/steamcmd/steamcmd.sh"; started := 1000;
     runs := [good_run]; saved_login := false; userdata_configs := 0%nat;
     archive := {| entries := [(1, 1); (2, 4); (4, 4)];
                   finish := ArchiveClosed 2048; written := Some 2048 |} |}.

(** The same with the total known from the start. *)
Definition steady_archive : inputs :=
  {| steamcmd := Some "/opt/steamcmd/steamcmd.sh"; started := 1000;
     runs := [good_run]; saved_login := false; userdata_configs := 0%nat;
     archive := {| entries := [(1, 4); (2, 4); (4, 4)];
                   finish := ArchiveClosed 2048; written := Some 2048 |} |}.

(** A run that is refused for lack of a subscription and leaves nothing. *)
Definition denied_run : Adapter.proc :=
  {| Adapter.stdout :=
       ["Loading Steam API...OK";
        "ERROR! Download item 1559212036 failed (Access Denied)."];
     Adapter.ends := Adapter.Closed 0;
     Adapter.leaves := λ fs, fs;
     Adapter.elapsed := 4000 |}.

(** A run that stops at the second-factor prompt. *)
Definition guard_run : Adapter.proc :=
  {| Adapter.stdout :=
       ["Logging in user 'dayzuser' to Steam Public...";
        "This computer has not been authenticated for your account using Steam Guard.";
        "Steam Guard code:"];
     Adapter.ends := Adapter.Closed 5;
     Adapter.leaves := λ fs, fs;
     Adapter.elapsed := 9000 |}.

(** An anonymous downloader in front of five refused runs. *)
Definition denied_world : Adapter.state :=
  {| Adapter.self := Adapter.new "/opt/steamcmd/steamcmd.sh" "anonymous" "";
     Adapter.fs := ∅;
     Adapter.script := [denied_run; denied_run; denied_run; denied_run; denied_run];
     Adapter.now := 1000; Adapter.saved_login := false;
     Adapter.userdata_configs := 0%nat; Adapter.effects := [] |}.

(** A named account without saved session, in front of the prompt. *)
Definition guard_world : Adapter.state :=
  {| Adapter.self := Adapter.new "/opt/steamcmd/steamcmd.sh" "dayzuser" "secret";
     Adapter.fs := ∅;
     Adapter.script := [guard_run; guard_run; guard_run];
     Adapter.now := 1000; Adapter.saved_login := false;
     Adapter.userdata_configs := 0%nat; Adapter.effects := [] |}.

(** A record logged, a subscriber connecting, and two more records: the
    second and the third within the same millisecond, the later one with
    the smaller random draw (0.5, then 0.25). *)
Definition same_millisecond : list Logger.op :=
  [Logger.Log 1700000000000 0 1700000000000 "info" "system" "started";
   Logger.Connect false 1700000000001 0 1700000000001;
   Logger.Log 1700000000002 (Double.one / 2) 1700000000002 "info" "download" "first";
   Logger.Log 1700000000002 (Double.one / 4) 1700000000002 "info" "download" "second"].

(** The same with the clock moving on between the records. *)
Definition ticking_clock : list Logger.op :=
  [Logger.Log 1700000000000 0 1700000000000 "info" "system" "started";
   Logger.Connect false 1700000000001 0 1700000000001;
   Logger.Log 1700000000002 (Double.one / 2) 1700000000002 "info" "download" "first";
   Logger.Log 1700000000003 (Double.one / 4) 1700000000003 "info" "download" "second"].

End Scenario.

(** * Properties *)

Import Server.

Local Open Scope Z_scope.
Local Open Scope list_scope.

(** ** Admission *)

Lemma extractWorkshopId_truthy (u workshop : string) :
  extractWorkshopId u = Some workshop → JS.truthy u = true.
Proof. destruct u; [discriminate | reflexivity]. Qed.

(** A request whose URL names a workshop item, arriving at a full table,
    is answered with 429 before anything else happens. *)
Lemma admission_full (e : env) (u workshop : string) (st : state) :
  extractWorkshopId u = Some workshop →
  maxConcurrent e <= occupancy st →
  admission e (Text u) st =
    inl {| code := 429;
           json := TooMany "Too many concurrent downloads. Please try again later."
                           (occupancy st) (maxConcurrent e) |}.
Proof.
  intros Hid Hfull. unfold admission.
  rewrite (extractWorkshopId_truthy _ _ Hid), Hid. simpl.
  destruct (Z.leb_spec (maxConcurrent e) (occupancy st)); [reflexivity | lia].
Qed.

(** C1, as amended.  A submission whose URL contains [id=<digits>],
    arriving when the number of entries of the job table is at or above
    the cap, is answered with status 429 and a body carrying the
    occupancy and the cap; no record is created, no pipeline is started
    and the state of the server is the one before the call. *)
Theorem submit_at_capacity_rejected (e : env) (now : Z) (u workshop : string)
    (info : workshop_info) (st : state) :
  extractWorkshopId u = Some workshop →
  maxConcurrent e <= occupancy st →
  post_download e now (Text u) info st =
    ({| code := 429;
        json := TooMany "Too many concurrent downloads. Please try again later."
                        (occupancy st) (maxConcurrent e) |},
     st, None).
Proof.
  intros Hid Hfull. unfold post_download.
  by rewrite (admission_full e u workshop st Hid Hfull).
Qed.

Lemma submit_at_capacity_rejected_witness :
  post_download Scenario.plain 1003
    (Text "https://steamcommunity.com/sharedfiles/filedetails/?id=1559212036")
    Scenario.mod_info Scenario.full =
  ({| code := 429;
      json := TooMany "Too many concurrent downloads. Please try again later." 3 3 |},
   Scenario.full, None).
Proof.
  apply (submit_at_capacity_rejected Scenario.plain 1003 _ "1559212036").
  - reflexivity.
  - vm_compute. discriminate.
Defined.

(** C1 as stated fails: at a full table a request without a usable URL is
    answered with 400, not with 429, because the URL is checked first. *)
Lemma submit_at_capacity_bad_url :
  ¬ (∀ (e : env) (now : Z) (url : url_field) (info : workshop_info) (st : state),
       maxConcurrent e <= occupancy st →
       code (post_download e now url info st).1.1 = 429).
Proof.
  intros H.
  specialize (H Scenario.plain 1003 (Text "https://steamcommunity.com/workshop")
                Scenario.mod_info Scenario.full).
  vm_compute in H. specialize (H ltac:(discriminate)). discriminate.
Qed.

(** ** Facts about the disk and about [cleanupFiles] *)

Lemma exists_after_remove (fs : Fs.t) (p : string) :
  Fs.existsSync (Fs.remove fs p) p = false.
Proof.
  unfold Fs.existsSync, Fs.remove. apply bool_decide_eq_false_2.
  intros H. apply H. apply map_empty_filter. intros k x Hk HP.
  apply map_lookup_filter_Some in Hk as [_ Hk]. simpl in *. congruence.
Qed.

Lemma cleanupFiles_downloads (e : env) (paths : list string) (force : bool) (st : state) :
  activeDownloads (cleanupFiles e paths force st) = activeDownloads st.
Proof.
  unfold cleanupFiles. destruct (_ || _); [|done].
  revert st. induction paths as [|p paths IH]; intros st; simpl; [done|].
  rewrite IH. by destruct (Fs.existsSync _ _).
Qed.

(** ** Cleanup *)

Lemma cleanup_unknown (e : env) (now : Z) (downloadId : string) (st : state) :
  activeDownloads st !! downloadId = None →
  cleanup e now downloadId st = ({| code := 404; json := Error "Download not found" |}, st).
Proof. intros H. unfold cleanup. by rewrite H. Qed.

Lemma cleanup_forgets (e : env) (now : Z) (downloadId : string) (st : state) :
  code (cleanup e now downloadId st).1 = 200 →
  activeDownloads (cleanup e now downloadId st).2 !! downloadId = None.
Proof.
  unfold cleanup. destruct (activeDownloads st !! downloadId) as [d|]; [|discriminate].
  destruct (JS.truthy (downloadPath d)); [|discriminate].
  intros _. simpl. apply lookup_delete_eq.
Qed.

(** C6, as amended.  Cleanup is not repeatable with the same answer: the
    first call drops the record, so a second call for the same identifier
    finds nothing, answers 404 "Download not found" and leaves the state
    (table, disk, cleanup queue, persistence calls) as it is.  Cleanup of
    an identifier that is not in the table also answers 404 and changes
    nothing. *)
Theorem cleanup_twice_not_found (e : env) (now now' : Z) (downloadId : string)
    (st : state) :
  (code (cleanup e now downloadId st).1 = 200 →
   cleanup e now' downloadId (cleanup e now downloadId st).2 =
     ({| code := 404; json := Error "Download not found" |},
      (cleanup e now downloadId st).2))
  ∧ (activeDownloads st !! downloadId = None →
     cleanup e now downloadId st =
       ({| code := 404; json := Error "Download not found" |}, st)).
Proof.
  split.
  - intros Hok. apply cleanup_unknown. by apply cleanup_forgets.
  - apply cleanup_unknown.
Qed.

Lemma cleanup_twice_not_found_witness :
  cleanup Scenario.plain 3000 "download_1000_1"
    (cleanup Scenario.plain 2000 "download_1000_1" Scenario.full).2 =
  ({| code := 404; json := Error "Download not found" |},
   (cleanup Scenario.plain 2000 "download_1000_1" Scenario.full).2).
Proof.
  apply (cleanup_twice_not_found Scenario.plain 2000 3000 "download_1000_1" Scenario.full).
  reflexivity.
Defined.

(** C6 as stated fails: after a successful cleanup the second call for the
    same job does not return success. *)
Lemma cleanup_second_call_fails :
  ¬ (∀ (e : env) (now now' : Z) (downloadId : string) (st : state),
       code (cleanup e now downloadId st).1 = 200 →
       code (cleanup e now' downloadId (cleanup e now downloadId st).2).1 = 200).
Proof.
  intros H.
  specialize (H Scenario.plain 2000 3000 "download_1000_1" Scenario.full).
  vm_compute in H. specialize (H eq_refl). discriminate.
Qed.

(** ** Delivery of the archive *)

Lemma get_file_completed (downloadId : string) (range : option string) (st : state)
    (d : download) :
  activeDownloads st !! downloadId = Some d →
  status d = Status.completed →
  Fs.existsSync (fs st) (zipPath d) = true →
  get_file downloadId range st =
    if JS.truthy (default "" range) then
      if readable (range_bounds (default "" range) (Fs.stat_size (fs st) (zipPath d)))
      then {| code := 206;
              json := Stream (zipPath d) range (Fs.stat_size (fs st) (zipPath d)) |}
      else {| code := 500; json := Error "Internal server error" |}
    else {| code := 200;
            json := Stream (zipPath d) None (Fs.stat_size (fs st) (zipPath d)) |}.
Proof.
  intros Hd Hs Hz. unfold get_file. rewrite Hd, Hs, Hz. simpl.
  destruct range as [r|]; simpl; [|done]. by destruct (JS.truthy r).
Qed.

(** A request with a range never changes anything, whatever the job. *)
Lemma range_request_frame (e : env) (now : Z) (downloadId r : string) (downloaded : Z)
    (st : state) :
  JS.truthy r = true →
  (deliver e now downloadId (Some r) downloaded st).2 = st.
Proof.
  intros Hr. unfold deliver, get_file.
  destruct (activeDownloads st !! downloadId) as [d|]; [|done].
  destruct (negb _); [done|]. destruct (negb _); [done|].
  rewrite Hr. by destruct (readable _).
Qed.

(** C7, as amended.  For a completed job whose archive is on disk, the
    delivery of the whole file (no range) drops the job record; it removes
    the directory that holds the archive only when
    [CLEANUP_AFTER_DOWNLOAD] is ["true"], and leaves the disk as it is
    otherwise.  A request with a range changes neither the table, nor the
    disk, nor anything else of the state; it is answered with 206 when
    the bounds read off the header can be streamed, and with 500 when
    they cannot (no number, or a start beyond the end). *)
Theorem whole_file_drops_range_keeps (e : env) (now : Z) (downloadId : string)
    (downloaded : Z) (st : state) (d : download) :
  activeDownloads st !! downloadId = Some d →
  status d = Status.completed →
  Fs.existsSync (fs st) (zipPath d) = true →
  let whole := deliver e now downloadId None downloaded st in
  code whole.1 = 200
  ∧ activeDownloads whole.2 !! downloadId = None
  ∧ (CLEANUP_AFTER_DOWNLOAD e = Some "true" →
     Fs.existsSync (fs whole.2) (JS.dirname (zipPath d)) = false)
  ∧ (CLEANUP_AFTER_DOWNLOAD e ≠ Some "true" → fs whole.2 = fs st)
  ∧ (∀ r : string, JS.truthy r = true →
     deliver e now downloadId (Some r) downloaded st =
       (if readable (range_bounds r (Fs.stat_size (fs st) (zipPath d)))
        then {| code := 206;
                json := Stream (zipPath d) (Some r) (Fs.stat_size (fs st) (zipPath d)) |}
        else {| code := 500; json := Error "Internal server error" |},
        st)).
Proof.
  intros Hd Hs Hz whole. subst whole.
  assert (∀ r : string, JS.truthy r = true →
            deliver e now downloadId (Some r) downloaded st =
              (if readable (range_bounds r (Fs.stat_size (fs st) (zipPath d)))
               then {| code := 206;
                       json := Stream (zipPath d) (Some r)
                                      (Fs.stat_size (fs st) (zipPath d)) |}
               else {| code := 500; json := Error "Internal server error" |},
               st)) as Hrange.
  { intros r Hr. unfold deliver.
    rewrite (get_file_completed downloadId (Some r) st d Hd Hs Hz).
    change (default "" (Some r)) with r. rewrite Hr.
    destruct (readable (range_bounds _ _)); reflexivity. }
  unfold deliver at 1 2 3 4.
  rewrite (get_file_completed downloadId None st d Hd Hs Hz).
  change (JS.truthy (default "" None)) with false. cbv iota. cbn [json fst snd].
  split; [done|]. split; [apply lookup_delete_eq|].
  split; [|split].
  - intros Hflag. unfold file_finished, cleanupFiles. simpl.
    rewrite Hflag. simpl.
    destruct (Fs.existsSync (fs st) (JS.dirname (zipPath d))) eqn:Hp; simpl;
      [apply exists_after_remove | done].
  - intros Hflag. unfold file_finished, cleanupFiles. simpl.
    by rewrite bool_decide_eq_false_2.
  - exact Hrange.
Qed.

Lemma whole_file_drops_range_keeps_witness :
  let st := run Scenario.tidy Scenario.one_completed in
  let whole := deliver Scenario.tidy 9000 "download_1000_1" None 2048 st in
  code whole.1 = 200
  ∧ activeDownloads whole.2 !! "download_1000_1" = None
  ∧ (CLEANUP_AFTER_DOWNLOAD Scenario.tidy = Some "true" →
     Fs.existsSync (fs whole.2) (JS.dirname (zipPath Scenario.first_record)) = false)
  ∧ (CLEANUP_AFTER_DOWNLOAD Scenario.tidy ≠ Some "true" → fs whole.2 = fs st)
  ∧ (∀ r : string, JS.truthy r = true →
     deliver Scenario.tidy 9000 "download_1000_1" (Some r) 2048 st =
       (if readable (range_bounds r (Fs.stat_size (fs st) (zipPath Scenario.first_record)))
        then {| code := 206;
                json := Stream (zipPath Scenario.first_record) (Some r)
                               (Fs.stat_size (fs st) (zipPath Scenario.first_record)) |}
        else {| code := 500; json := Error "Internal server error" |},
        st)).
Proof.
  apply (whole_file_drops_range_keeps Scenario.tidy 9000 "download_1000_1" 2048
           (run Scenario.tidy Scenario.one_completed) Scenario.first_record);
    vm_compute; reflexivity.
Defined.

(** On the archive of 2048 bytes: the first hundred bytes and an open
    range are streamed; a start beyond the last byte, a suffix range and
    a header without numbers end in the [catch] of the handler. *)
Example range_answers :
  let st := run Scenario.tidy Scenario.one_completed in
  map (λ r, code (get_file "download_1000_1" (Some r) st))
      ["bytes=0-99"; "bytes=1024-"; "bytes=9999-"; "bytes=-500"; "garbage"]
  = [206; 206; 500; 500; 500].
Proof. vm_compute. reflexivity. Qed.

(** C7 as stated fails: without [CLEANUP_AFTER_DOWNLOAD=true] the delivery
    of the whole file drops the record but leaves the workspace on disk. *)
Lemma whole_file_keeps_workspace :
  ¬ (∀ (e : env) (now : Z) (downloadId : string) (downloaded : Z) (st : state)
       (d : download),
       activeDownloads st !! downloadId = Some d →
       status d = Status.completed →
       Fs.existsSync (fs st) (zipPath d) = true →
       Fs.existsSync (fs (deliver e now downloadId None downloaded st).2)
                     (downloadPath d) = false).
Proof.
  intros H.
  specialize (H Scenario.plain 9000 "download_1000_1" 2048
                (run Scenario.plain Scenario.one_completed) Scenario.first_record).
  vm_compute in H. specialize (H eq_refl eq_refl eq_refl). discriminate.
Qed.

(** ** The sweeper *)

(** Two conditionals on decisions of equivalent propositions agree. *)
Ltac same_decision :=
  match goal with
  | |- (if bool_decide ?A then _ else _) = (if bool_decide ?B then _ else _) =>
      rewrite (bool_decide_ext A B); [reflexivity|]
  end.

Lemma sweep_fold_lookup (e : env) (now : Z) (l : list (string * download)) (st : state)
    (k : string) :
  activeDownloads
    (foldl (λ st entry,
              if maxAge <? now - startTime entry.2 then
                let st := if JS.truthy (downloadPath entry.2)
                          then cleanupFiles e [downloadPath entry.2] true st else st in
                let st := record_call
                            (updateDownloadInHistory entry.1 (AutoCleaned now)) st in
                set_downloads (delete entry.1) st
              else st) st l) !! k =
  if bool_decide (Exists (λ entry, entry.1 = k ∧ maxAge < now - startTime entry.2) l)
  then None else activeDownloads st !! k.
Proof.
  revert st. induction l as [|a l IH]; intros st.
  - simpl. done.
  - cbn [foldl]. rewrite IH. clear IH.
    destruct (Z.ltb_spec maxAge (now - startTime a.2)) as [Hold|Hyoung].
    + simpl. destruct (decide (a.1 = k)) as [<-|Hne].
      * rewrite (bool_decide_eq_true_2 (Exists _ (a :: l))); [|by left].
        rewrite lookup_delete_eq. by case_bool_decide.
      * rewrite lookup_delete_ne by done.
        assert (activeDownloads
                  (if JS.truthy (downloadPath a.2)
                   then cleanupFiles e [downloadPath a.2] true st else st)
                = activeDownloads st) as ->.
        { destruct (JS.truthy _); [apply cleanupFiles_downloads | done]. }
        same_decision. rewrite Exists_cons. tauto.
    + same_decision. rewrite Exists_cons. intuition lia.
Qed.

(** The sweeper keeps exactly the records that started at most two hours
    before [now]. *)
Lemma sweep_downloads (e : env) (now : Z) (st : state) :
  activeDownloads (sweep e now st) =
  filter (λ kv, ¬ maxAge < now - startTime kv.2) (activeDownloads st).
Proof.
  apply map_eq. intros k. unfold sweep. rewrite sweep_fold_lookup.
  destruct (activeDownloads st !! k) as [d|] eqn:Hk.
  - destruct (decide (maxAge < now - startTime d)) as [Hold|Hyoung].
    + rewrite bool_decide_eq_true_2.
      * symmetry. apply map_lookup_filter_None. right. intros x Hx. simpl.
        rewrite Hk in Hx. injection Hx as <-. tauto.
      * apply Exists_exists. exists (k, d). split; [|done].
        by apply elem_of_map_to_list.
    + rewrite bool_decide_eq_false_2.
      * symmetry. by apply map_lookup_filter_Some.
      * rewrite Exists_exists. intros ([k' d'] & Hin & Hkey & Hold). simpl in *.
        subst k'. apply elem_of_map_to_list in Hin. congruence.
  - rewrite (proj2 (map_lookup_filter_None _ _ _)); [by case_bool_decide | by left].
Qed.
(** ** The writers of the pipeline *)

Lemma updateStatus_lookup (j : job) (s : Status.t) (data : patch) (st : state) (k : string) :
  activeDownloads (updateStatus j s data st) !! k =
  match activeDownloads st !! job_downloadId j with
  | Some d =>
      if decide (job_downloadId j = k) then Some (spread d (with_status s data))
      else activeDownloads st !! k
  | None => activeDownloads st !! k
  end.
Proof.
  unfold updateStatus. destruct (activeDownloads st !! job_downloadId j); [|done].
  simpl. apply lookup_insert.
Qed.

Lemma updateProgress_lookup (j : job) (p : Z) (st : state) (k : string) :
  activeDownloads (updateProgress j p st) !! k =
  match activeDownloads st !! job_downloadId j with
  | Some d =>
      if decide (job_downloadId j = k) then Some (spread d (progress_patch (Z.min p 100)))
      else activeDownloads st !! k
  | None => activeDownloads st !! k
  end.
Proof.
  unfold updateProgress. destruct (activeDownloads st !! job_downloadId j); [|done].
  simpl. apply lookup_insert.
Qed.

Lemma fail_lookup (e : env) (now : Z) (j : job) (message : string) (st : state)
    (k : string) :
  activeDownloads (fail e now j message st) !! k =
  match activeDownloads st !! job_downloadId j with
  | Some d =>
      if decide (job_downloadId j = k)
      then Some (spread d {| p_status := Some Status.error; p_progress := None;
                             p_zipPath := None; p_downloadUrl := None;
                             p_fileSize := None; p_completedTime := None;
                             p_method := None; p_error := Some message;
                             p_errorTime := Some now |})
      else activeDownloads st !! k
  | None => activeDownloads st !! k
  end.
Proof.
  unfold fail. simpl.
  destruct (activeDownloads st !! job_downloadId j) as [d|] eqn:Hd.
  - assert (activeDownloads
              (if JS.truthy (downloadPath d)
               then cleanupFiles e [downloadPath d] true st else st)
            = activeDownloads st) as Hsame.
    { destruct (JS.truthy _); [apply cleanupFiles_downloads | done]. }
    rewrite Hsame, Hd. simpl. rewrite Hsame. apply lookup_insert.
  - by rewrite Hd.
Qed.

Lemma register_archive_lookup (e : env) (now : Z) (j : job) (archivePath : string)
    (how : option string) (st : state) (k : string) (d' : download) :
  activeDownloads (register_archive e now j archivePath how st) !! k = Some d' →
  activeDownloads st !! k = Some d' ∧ job_downloadId j ≠ k
  ∨ (job_downloadId j = k ∧ status d' = Status.error)
  ∨ (job_downloadId j = k ∧ status d' = Status.completed
     ∧ zipPath d' = job_zipPath j
     ∧ downloadUrl d' = Some (generateDownloadUrl e k (workshopId d'))
     ∧ fileSize d' = Some (Fs.stat_size (fs st) archivePath)
     ∧ minZipSize <= Fs.stat_size (fs st) archivePath
     ∧ Fs.existsSync (fs st) archivePath = true
     ∧ fs (register_archive e now j archivePath how st) = fs st).
Proof.
  unfold register_archive.
  destruct (Fs.existsSync (fs st) archivePath) eqn:Hex; cbn [negb].
  2:{ rewrite fail_lookup.
      destruct (activeDownloads st !! job_downloadId j) as [d|] eqn:Hd.
      - case_decide; [|intros; left; done].
        intros [= <-]. right. left. done.
      - intros H. left. split; [done|]. intros <-. congruence. }
  destruct (Z.ltb_spec (Fs.stat_size (fs st) archivePath) minZipSize) as [Hsmall|Hbig].
  - rewrite fail_lookup.
    destruct (activeDownloads st !! job_downloadId j) as [d|] eqn:Hd.
    + case_decide; [|intros; left; done].
      intros [= <-]. right. left. done.
    + intros H. left. split; [done|]. intros <-. congruence.
  - rewrite updateStatus_lookup.
    destruct (activeDownloads st !! job_downloadId j) as [d|] eqn:Hd.
    + case_decide as Hk; [|intros; left; done].
      intros [= <-]. right. right. subst k. simpl.
      repeat split; try done.
      unfold updateStatus. by rewrite Hd.
    + intros H. left. split; [done|]. intros <-. congruence.
Qed.

(** ** Status queries *)

Lemma post_download_lookup (e : env) (now : Z) (url : url_field) (info : workshop_info)
    (st : state) (k : string) (d : download) :
  activeDownloads (post_download e now url info st).1.2 !! k = Some d →
  activeDownloads st !! k = Some d ∨ status d = Status.starting.
Proof.
  unfold post_download. destruct (admission e url st) as [r|workshop]; [by left|].
  unfold start_job. destruct (negb (isValid info)); [by left|].
  destruct (negb (isDayZ info)); [by left|]. simpl.
  rewrite lookup_insert. case_decide; [|by left]. intros [= <-]. by right.
Qed.

Lemma deliver_lookup (e : env) (now : Z) (downloadId : string) (range : option string)
    (downloaded : Z) (st : state) (k : string) (d : download) :
  activeDownloads (deliver e now downloadId range downloaded st).2 !! k = Some d →
  activeDownloads st !! k = Some d.
Proof.
  unfold deliver. destruct (json (get_file downloadId range st)); try done.
  destruct range0; [done|]. simpl. unfold file_finished. simpl.
  rewrite lookup_delete_Some, cleanupFiles_downloads. tauto.
Qed.

Lemma cleanup_lookup (e : env) (now : Z) (downloadId : string) (st : state)
    (k : string) (d : download) :
  activeDownloads (cleanup e now downloadId st).2 !! k = Some d →
  activeDownloads st !! k = Some d.
Proof.
  unfold cleanup. destruct (activeDownloads st !! downloadId) as [d0|]; [|done].
  destruct (JS.truthy (downloadPath d0)); [|done]. simpl.
  rewrite lookup_delete_Some, cleanupFiles_downloads. tauto.
Qed.

(** The invariant holds after every operation. *)
Lemma step_completed_sound (e : env) (o : op) (st : state) :
  completed_sound e st → completed_sound e (step e o st).
Proof.
  intros Hinv k d Hk Hdone. destruct o; cbn [step] in Hk.
  - apply post_download_lookup in Hk as [Hk|Hs]; [by apply (Hinv k) | congruence].
  - unfold get_status in Hk.
    destruct (activeDownloads st !! downloadId) as [d0|] eqn:Hd0; [|by apply (Hinv k)].
    destruct (bool_decide (status d0 = Status.completed) && JS.truthy (zipPath d0));
      [|by apply (Hinv k)].
    simpl in Hk. rewrite lookup_insert in Hk. case_decide; [|by apply (Hinv k)].
    injection Hk as <-. subst k. split; [reflexivity|].
    simpl in *. by apply (Hinv _ _ Hd0).
  - by apply (Hinv k).
  - apply deliver_lookup in Hk. by apply (Hinv k).
  - apply cleanup_lookup in Hk. by apply (Hinv k).
  - done.
  - rewrite sweep_downloads in Hk. apply map_lookup_filter_Some in Hk as [Hk _].
    by apply (Hinv k).
  - rewrite updateProgress_lookup in Hk.
    destruct (activeDownloads st !! job_downloadId j) as [d0|] eqn:Hd0; [|by apply (Hinv k)].
    case_decide; [|by apply (Hinv k)]. injection Hk as <-. subst k.
    simpl in *. apply (Hinv _ _ Hd0). done.
  - rewrite updateStatus_lookup in Hk.
    destruct (activeDownloads st !! job_downloadId j) as [d0|] eqn:Hd0; [|by apply (Hinv k)].
    case_decide; [|by apply (Hinv k)]. injection Hk as <-. discriminate.
  - rewrite updateStatus_lookup in Hk.
    destruct (activeDownloads st !! job_downloadId j) as [d0|] eqn:Hd0; [|by apply (Hinv k)].
    case_decide; [|by apply (Hinv k)]. injection Hk as <-. discriminate.
  - rewrite updateStatus_lookup in Hk.
    destruct (activeDownloads st !! job_downloadId j) as [d0|] eqn:Hd0; [|by apply (Hinv k)].
    case_decide; [|by apply (Hinv k)]. injection Hk as <-. discriminate.
  - apply register_archive_lookup in Hk
      as [[Hk _]|[[_ Herr]|(_ & _ & _ & Hurl & Hsize & Hbig & _)]].
    + by apply (Hinv k).
    + congruence.
    + split; [done|]. by eexists.
  - rewrite fail_lookup in Hk.
    destruct (activeDownloads st !! job_downloadId j) as [d0|] eqn:Hd0; [|by apply (Hinv k)].
    case_decide; [|by apply (Hinv k)]. injection Hk as <-. discriminate.
  - by apply (Hinv k).
Qed.

Lemma run_completed_sound (e : env) (ops : list op) : completed_sound e (run e ops).
Proof.
  unfold run. induction ops as [|o ops IH] using rev_ind.
  - intros k d Hk. done.
  - rewrite foldl_app. simpl. by apply step_completed_sound.
Qed.

Lemma spread_same_url (d : download) (u : string) :
  downloadUrl d = Some u →
  spread d {| p_status := None; p_progress := None; p_zipPath := None;
              p_downloadUrl := Some u; p_fileSize := None; p_completedTime := None;
              p_method := None; p_error := None; p_errorTime := None |} = d.
Proof. destruct d. simpl. by intros ->. Qed.

(** C8.  In every state the server can reach, a status query answers with
    the record as it is stored (a value of its own once serialised, so
    nothing done to the answer reaches the table) and leaves the state of
    the server, in particular the stored record, unchanged: the
    [downloadUrl] the handler assigns on a completed record is the one
    that record already carries. *)
Theorem status_query_is_a_snapshot (e : env) (ops : list op) (downloadId : string) :
  get_status e downloadId (run e ops) =
    (match activeDownloads (run e ops) !! downloadId with
     | Some d => {| code := 200; json := Snapshot d |}
     | None => {| code := 404; json := Error "Download not found" |}
     end,
     run e ops).
Proof.
  unfold get_status.
  destruct (activeDownloads (run e ops) !! downloadId) as [d|] eqn:Hd; [|done].
  destruct (bool_decide (status d = Status.completed) && JS.truthy (zipPath d)) eqn:Hc;
    [|done].
  apply andb_true_iff in Hc as [Hc _]. apply bool_decide_eq_true in Hc.
  rewrite (spread_same_url d _ (proj1 (run_completed_sound e ops downloadId d Hd Hc))).
  f_equal. unfold set_downloads. rewrite insert_id by done. by destruct (run e ops).
Qed.

(** ** Occupancy *)

Lemma get_file_whole (downloadId : string) (range : option string) (st : state)
    (zip : string) (size : Z) :
  json (get_file downloadId range st) = Stream zip None size →
  JS.truthy (default "" range) = false.
Proof.
  unfold get_file. destruct (activeDownloads st !! downloadId) as [d|]; [|done].
  destruct (negb _); [done|]. destruct (negb _); [done|].
  destruct range as [r|]; [|done]. change (default "" (Some r)) with r.
  destruct (JS.truthy r); [|done].
  by destruct (readable (range_bounds _ _)).
Qed.

Lemma register_archive_keeps (e : env) (now : Z) (j : job) (archivePath : string)
    (how : option string) (st : state) (k : string) :
  is_Some (activeDownloads st !! k) →
  is_Some (activeDownloads (register_archive e now j archivePath how st) !! k).
Proof.
  intros Hk. unfold register_archive.
  destruct (negb _); [|destruct (_ <? _)].
  - rewrite fail_lookup. destruct (activeDownloads st !! job_downloadId j); [|done].
    by case_decide.
  - rewrite fail_lookup. destruct (activeDownloads st !! job_downloadId j); [|done].
    by case_decide.
  - rewrite updateStatus_lookup. destruct (activeDownloads st !! job_downloadId j); [|done].
    by case_decide.
Qed.

(** A record leaves the table only through one of the removing
    operations. *)
Lemma step_keeps_unless_removed (e : env) (o : op) (st : state) (downloadId : string)
    (d : download) :
  activeDownloads st !! downloadId = Some d →
  activeDownloads (step e o st) !! downloadId = None →
  removes o downloadId d = true.
Proof.
  intros Hd Hgone. destruct o; cbn [step removes] in *.
  - exfalso. revert Hgone. unfold post_download.
    destruct (admission e url st); [simpl; congruence|]. unfold start_job.
    destruct (negb (isValid info)); [simpl; congruence|].
    destruct (negb (isDayZ info)); [simpl; congruence|]. simpl.
    rewrite lookup_insert. case_decide; congruence.
  - exfalso. revert Hgone. unfold get_status.
    destruct (activeDownloads st !! downloadId0); [|simpl; congruence].
    destruct (_ && _); [|simpl; congruence]. simpl.
    rewrite lookup_insert. case_decide; congruence.
  - congruence.
  - revert Hgone. unfold deliver.
    destruct (json (get_file downloadId0 range st)) eqn:Hr; try (simpl; congruence).
    destruct range0; [simpl; congruence|].
    simpl. unfold file_finished. simpl.
    rewrite lookup_delete_None, cleanupFiles_downloads. simpl.
    intros [->|?]; [|congruence].
    rewrite String.eqb_refl. simpl. by rewrite (get_file_whole _ _ _ _ _ Hr).
  - revert Hgone. unfold cleanup.
    destruct (activeDownloads st !! downloadId0) as [d0|]; [|simpl; congruence].
    destruct (JS.truthy (downloadPath d0)); [|simpl; congruence]. simpl.
    rewrite lookup_delete_None, cleanupFiles_downloads. intros [->|?]; [|congruence].
    apply String.eqb_refl.
  - done.
  - rewrite sweep_downloads in Hgone. apply map_lookup_filter_None in Hgone as [?|Hold];
      [congruence|].
    specialize (Hold d Hd). simpl in Hold. apply Z.ltb_lt. lia.
  - exfalso. revert Hgone. rewrite updateProgress_lookup.
    destruct (activeDownloads st !! job_downloadId j); [|congruence].
    case_decide; congruence.
  - exfalso. revert Hgone. rewrite updateStatus_lookup.
    destruct (activeDownloads st !! job_downloadId j); [|congruence].
    case_decide; congruence.
  - exfalso. revert Hgone. rewrite updateStatus_lookup.
    destruct (activeDownloads st !! job_downloadId j); [|congruence].
    case_decide; congruence.
  - exfalso. revert Hgone. rewrite updateStatus_lookup.
    destruct (activeDownloads st !! job_downloadId j); [|congruence].
    case_decide; congruence.
  - exfalso.
    destruct (register_archive_keeps e now j (job_zipPath j) how st downloadId) as [x Hx];
      [by eexists | congruence].
  - exfalso. revert Hgone. rewrite fail_lookup.
    destruct (activeDownloads st !! job_downloadId j); [|congruence].
    case_decide; congruence.
  - simpl in *. congruence.
Qed.

Lemma occupancy_counts (st : state) (downloadId : string) (d : download) :
  activeDownloads st !! downloadId = Some d →
  occupancy st = occupancy (set_downloads (delete downloadId) st) + 1.
Proof.
  intros Hd. unfold occupancy. simpl.
  rewrite map_size_delete_Some by (by eexists).
  assert (size (activeDownloads st) ≠ 0%nat).
  { apply map_size_non_empty_iff. intros Hm. rewrite Hm in Hd. done. }
  lia.
Qed.

(** C10.  The occupancy that the admission check compares with the cap is
    the number of all records of the table, whatever their status: a
    record (completed and error records included) counts for one, a full
    table rejects a well-formed submission with 429 whatever the records
    in it are, and a record stays in the table under every operation
    except the delivery of the whole file, an explicit cleanup, a
    clear-all and a sweep more than two hours after the start of the job,
    each of which removes it. *)
Theorem every_record_holds_a_slot (e : env) (st : state) (downloadId : string)
    (d : download) :
  activeDownloads st !! downloadId = Some d →
  occupancy st = occupancy (set_downloads (delete downloadId) st) + 1
  ∧ (∀ (now : Z) (u workshop : string) (info : workshop_info),
       extractWorkshopId u = Some workshop →
       maxConcurrent e <= occupancy st →
       (post_download e now (Text u) info st).1 =
         ({| code := 429;
             json := TooMany "Too many concurrent downloads. Please try again later."
                             (occupancy st) (maxConcurrent e) |}, st))
  ∧ (∀ o : op, activeDownloads (step e o st) !! downloadId = None →
               removes o downloadId d = true)
  ∧ (∀ now : Z, activeDownloads (step e (Clear now) st) = ∅)
  ∧ (∀ now : Z, JS.truthy (downloadPath d) = true →
                activeDownloads (step e (Cleanup now downloadId) st) !! downloadId = None)
  ∧ (∀ now : Z, maxAge < now - startTime d →
                activeDownloads (step e (Sweep now) st) !! downloadId = None)
  ∧ (∀ now downloaded : Z,
       status d = Status.completed →
       Fs.existsSync (fs st) (zipPath d) = true →
       activeDownloads (step e (GetFile now downloadId None downloaded) st)
         !! downloadId = None).
Proof.
  intros Hd. split_and!.
  - by apply occupancy_counts with d.
  - intros now u workshop info Hid Hfull. unfold post_download.
    by rewrite (admission_full e u workshop st Hid Hfull).
  - intros o. by apply step_keeps_unless_removed.
  - intros now. reflexivity.
  - intros now Hpath. simpl. unfold cleanup. rewrite Hd, Hpath. simpl.
    apply lookup_delete_eq.
  - intros now Hold. simpl. rewrite sweep_downloads.
    apply map_lookup_filter_None. right. intros x Hx. simpl.
    rewrite Hd in Hx. injection Hx as <-. tauto.
  - intros now downloaded Hs Hz. simpl. unfold deliver.
    rewrite (get_file_completed downloadId None st d Hd Hs Hz). simpl.
    apply lookup_delete_eq.
Qed.

Lemma every_record_holds_a_slot_witness :
  let st := run Scenario.plain Scenario.one_completed in
  occupancy st = occupancy (set_downloads (delete "download_1000_1") st) + 1
  ∧ (∀ o : op, activeDownloads (step Scenario.plain o st) !! "download_1000_1" = None →
               removes o "download_1000_1" Scenario.first_record = true).
Proof.
  intros st.
  destruct (every_record_holds_a_slot Scenario.plain st "download_1000_1"
              Scenario.first_record) as (H1 & _ & H3 & _).
  - vm_compute. reflexivity.
  - split; [exact H1 | exact H3].
Defined.

(** ** Registration of the archive *)

Lemma stat_size_file (fs : Fs.t) (p : string) :
  0 < Fs.stat_size fs p → fs !! p = Some (Fs.File (Fs.stat_size fs p)).
Proof.
  unfold Fs.stat_size. destruct (fs !! p) as [[size|]|]; [done | lia | lia].
Qed.

(** What a record that is completed right after [register_archive] says,
    and what is on disk then. *)
Lemma register_archive_completed (e : env) (now : Z) (j : job) (how : option string)
    (st : state) (d : download) :
  let st' := register_archive e now j (job_zipPath j) how st in
  activeDownloads st' !! job_downloadId j = Some d →
  status d = Status.completed →
  zipPath d = job_zipPath j
  ∧ ∃ size, fileSize d = Some size ∧ 512 <= size
            ∧ fs st' !! zipPath d = Some (Fs.File size)
            ∧ Fs.existsSync (fs st') (zipPath d) = true.
Proof.
  intros st' Hd Hs. subst st'.
  apply register_archive_lookup in Hd
    as [[_ Hne]|[[_ Herr]|(_ & _ & Hzip & _ & Hsize & Hbig & Hex & Hfs)]].
  - done.
  - congruence.
  - split; [done|]. exists (Fs.stat_size (fs st) (job_zipPath j)).
    unfold minZipSize in Hbig. rewrite Hfs, Hzip.
    split_and!; [done | done | apply stat_size_file; lia | done].
Qed.

Lemma fail_errors (e : env) (now : Z) (j : job) (message : string) (st : state) :
  is_Some (activeDownloads st !! job_downloadId j) →
  ∃ d, activeDownloads (fail e now j message st) !! job_downloadId j = Some d
       ∧ status d = Status.error.
Proof.
  intros [d0 Hd0]. rewrite fail_lookup, Hd0. rewrite decide_True by done.
  by eexists.
Qed.

Lemma fail_not_completed (e : env) (now : Z) (j : job) (message : string) (st : state)
    (d : download) :
  activeDownloads (fail e now j message st) !! job_downloadId j = Some d →
  status d ≠ Status.completed.
Proof.
  rewrite fail_lookup.
  destruct (activeDownloads st !! job_downloadId j) as [d0|] eqn:Hd0; [|congruence].
  rewrite decide_True by done. intros [= <-]. done.
Qed.

Lemma register_archive_small (e : env) (now : Z) (j : job) (archivePath : string)
    (how : option string) (st : state) :
  is_Some (activeDownloads st !! job_downloadId j) →
  Fs.stat_size (fs st) archivePath < 512 →
  ∃ d, activeDownloads (register_archive e now j archivePath how st)
         !! job_downloadId j = Some d
       ∧ status d = Status.error.
Proof.
  intros Hd Hsmall. unfold register_archive.
  destruct (negb _); [by apply fail_errors|].
  destruct (Z.ltb_spec (Fs.stat_size (fs st) archivePath) minZipSize) as [_|Hbig];
    [by apply fail_errors | unfold minZipSize in Hbig; lia].
Qed.

(** [createZipArchive] resolves with the output path it was given. *)
Lemma createZipArchive_resolves (e : env) (sourcePath outputPath workshop : string)
    (cb : Z → state → state) (run : archive_run) (st st' : state) (archivePath : string) :
  createZipArchive e sourcePath outputPath workshop cb run st
    = (Adapter.Resolved archivePath, st') →
  archivePath = outputPath.
Proof.
  unfold createZipArchive. destruct (archive_source _ _ _ _); [|congruence].
  destruct (finish run); [|congruence|congruence].
  destruct (0 <? pointer); congruence.
Qed.

(** A pipeline ends in the [catch] block or with the registration of the
    archive at the job's zip path. *)
Lemma pipeline_ends (e : env) (j : job) (i : inputs) (st : state) :
  ∃ now st',
    (∃ message, pipeline e j i st = fail e now j message st')
    ∨ (∃ how, pipeline e j i st = register_archive e now j (job_zipPath j) how st').
Proof.
  unfold pipeline.
  destruct (downloadWorkshopItem _ _ _ _ _ _) as [[[downloadResult|message] st1] now].
  2:{ exists now, st1. left. by eexists. }
  destruct (negb (fetched_success downloadResult)); [exists now; eexists; left; by eexists|].
  destruct (negb (content_downloaded e j (fs st1))); [exists now; eexists; left; by eexists|].
  destruct (createZipArchive _ _ _ _ _ _ _) as [[archivePath|message] st2] eqn:Hzip.
  - apply createZipArchive_resolves in Hzip as ->.
    exists now, st2. right. by eexists.
  - exists now, st2. left. by eexists.
Qed.

(** C4.  A completed record carries an archive size of at least 512
    bytes, in every state the server can reach; at the moment
    [register_archive] (or a whole pipeline) completes a job, the
    registered [zipPath] is the job's zip path and a file of the recorded
    size is on disk there; and when the file produced by the build is
    smaller than 512 bytes the job record becomes an error record
    instead. *)
Theorem completed_archive_at_least_512 (e : env) :
  (∀ (ops : list op) (k : string) (d : download),
     activeDownloads (run e ops) !! k = Some d →
     status d = Status.completed →
     ∃ size, fileSize d = Some size ∧ 512 <= size)
  ∧ (∀ (now : Z) (j : job) (how : option string) (st : state) (d : download),
       let st' := register_archive e now j (job_zipPath j) how st in
       activeDownloads st' !! job_downloadId j = Some d →
       status d = Status.completed →
       zipPath d = job_zipPath j
       ∧ ∃ size, fileSize d = Some size ∧ 512 <= size
                 ∧ fs st' !! zipPath d = Some (Fs.File size)
                 ∧ Fs.existsSync (fs st') (zipPath d) = true)
  ∧ (∀ (j : job) (i : inputs) (st : state) (d : download),
       let st' := pipeline e j i st in
       activeDownloads st' !! job_downloadId j = Some d →
       status d = Status.completed →
       zipPath d = job_zipPath j
       ∧ ∃ size, fileSize d = Some size ∧ 512 <= size
                 ∧ fs st' !! zipPath d = Some (Fs.File size)
                 ∧ Fs.existsSync (fs st') (zipPath d) = true)
  ∧ (∀ (now : Z) (j : job) (how : option string) (st : state),
       is_Some (activeDownloads st !! job_downloadId j) →
       Fs.stat_size (fs st) (job_zipPath j) < 512 →
       ∃ d, activeDownloads (register_archive e now j (job_zipPath j) how st)
              !! job_downloadId j = Some d
            ∧ status d = Status.error).
Proof.
  split_and!.
  - intros ops k d Hd Hs.
    destruct (run_completed_sound e ops k d Hd Hs) as [_ Hsize]. exact Hsize.
  - intros now j how st d. apply register_archive_completed.
  - intros j i st d st' Hd Hs. subst st'.
    destruct (pipeline_ends e j i st) as (now & st1 & [[message Hp]|[how Hp]]);
      rewrite Hp in *.
    + by apply fail_not_completed in Hd.
    + by apply register_archive_completed.
  - intros now j how st. apply register_archive_small.
Qed.

Lemma completed_archive_at_least_512_witness :
  ∃ size, fileSize Scenario.first_record = Some size ∧ 512 <= size.
Proof.
  destruct (completed_archive_at_least_512 Scenario.plain) as [H _].
  apply (H Scenario.one_completed "download_1000_1"); vm_compute; reflexivity.
Defined.

(** ** Progress *)

Lemma nondecreasing_cons (a : Z) (l : list Z) :
  nondecreasing (a :: l) = true → Forall (λ p, a <= p) l ∧ nondecreasing l = true.
Proof.
  revert a. induction l as [|b l IH]; intros a H; [by split|].
  cbn [nondecreasing] in H. apply andb_true_iff in H as [Hab Hl].
  apply Z.leb_le in Hab. split; [|done].
  constructor; [done|]. destruct (IH b Hl) as [Hall _].
  eapply Forall_impl; [exact Hall|]. intros x Hx. simpl in Hx. lia.
Qed.

Lemma nondecreasing_app (m : Z) (l1 l2 : list Z) :
  nondecreasing l1 = true → nondecreasing l2 = true →
  Forall (λ p, p <= m) l1 → Forall (λ p, m <= p) l2 →
  nondecreasing (l1 ++ l2) = true.
Proof.
  intros H1 H2 Hlo Hhi. induction l1 as [|a l1 IH]; [done|].
  apply Forall_cons in Hlo as [Ha Hlo].
  destruct l1 as [|b l1].
  - simpl. destruct l2 as [|c l2]; [done|].
    apply Forall_cons in Hhi as [Hc _]. simpl in H2.
    apply andb_true_iff. split; [apply Z.leb_le; lia | done].
  - cbn [nondecreasing] in H1. apply andb_true_iff in H1 as [Hab Hl].
    change (nondecreasing (a :: b :: (l1 ++ l2)) = true). cbn [nondecreasing].
    apply andb_true_iff. split; [done|]. by apply IH.
Qed.

Lemma appends_refl (given : Prop) (k : string) (lo hi : Z) (st st' : state) :
  db st' = db st → appends given k lo hi st st'.
Proof.
  intros Hdb. exists []. unfold progress_writes. rewrite Hdb, app_nil_r.
  split_and!; [done | constructor | split; [constructor | done]].
Qed.

Lemma appends_trans (given : Prop) (k : string) (lo1 hi1 lo2 hi2 : Z)
    (st st1 st2 : state) :
  lo1 <= lo2 → hi1 <= lo2 → hi1 <= hi2 →
  appends given k lo1 hi1 st st1 → appends given k lo2 hi2 st1 st2 →
  appends given k lo1 hi2 st st2.
Proof.
  intros Hlo Hmid Hhi (new1 & Hw1 & Hu1 & Hs1) (new2 & Hw2 & Hu2 & Hs2).
  exists (new1 ++ new2). split_and!.
  - by rewrite Hw2, Hw1, app_assoc.
  - apply Forall_app. split; [|done].
    eapply Forall_impl; [exact Hu1|]. intros x Hx. simpl in Hx. lia.
  - intros Hg. destruct (Hs1 Hg) as [Hl1 Hn1]. destruct (Hs2 Hg) as [Hl2 Hn2]. split.
    + apply Forall_app. split; [done|].
      eapply Forall_impl; [exact Hl2|]. intros x Hx. simpl in Hx. lia.
    + apply (nondecreasing_app hi1); try done.
      eapply Forall_impl; [exact Hl2|]. intros x Hx. simpl in Hx. lia.
Qed.

Lemma appends_widen (given : Prop) (k : string) (lo hi lo' hi' : Z) (st st' : state) :
  lo' <= lo → hi <= hi' → appends given k lo hi st st' → appends given k lo' hi' st st'.
Proof.
  intros Hlo Hhi (new & Hw & Hu & Hs). exists new. split_and!; [done| |].
  - eapply Forall_impl; [exact Hu|]. intros x Hx. simpl in Hx. lia.
  - intros Hg. destruct (Hs Hg) as [Hl Hn]. split; [|done].
    eapply Forall_impl; [exact Hl|]. intros x Hx. simpl in Hx. lia.
Qed.

Lemma progress_writes_call (k : string) (c : db_call) (st : state) :
  progress_writes k (record_call c st) =
  (progress_writes k st ++
   match c with
   | updateDownloadInHistory i (Patch p) =>
       if String.eqb i k then option_list (p_progress p) else []
   | _ => []
   end)%list.
Proof.
  unfold progress_writes. simpl. rewrite omap_app. f_equal. simpl.
  destruct c as [|i [p| | |]]; try done.
  destruct (String.eqb i k); [|done]. by destruct (p_progress p).
Qed.

Lemma appends_write (given : Prop) (k : string) (lo hi p : Z) (change : patch)
    (st st0 : state) :
  db st0 = db st → p_progress change = Some p → lo <= p <= hi →
  appends given k lo hi st (record_call (updateDownloadInHistory k (Patch change)) st0).
Proof.
  intros Hdb Hc Hp. exists [p]. rewrite progress_writes_call, String.eqb_refl, Hc.
  unfold progress_writes. rewrite Hdb. simpl.
  split_and!; [done | constructor; [lia|constructor] |].
  intros _. split; [constructor; [lia|constructor] | done].
Qed.

Lemma updateProgress_appends (given : Prop) (j : job) (lo hi p : Z) (st : state) :
  lo <= Z.min p 100 <= hi →
  appends given (job_downloadId j) lo hi st (updateProgress j p st).
Proof.
  intros Hp. unfold updateProgress.
  destruct (activeDownloads st !! job_downloadId j); [|by apply appends_refl].
  by apply appends_write with (Z.min p 100).
Qed.

Lemma updateStatus_appends (given : Prop) (j : job) (s : Status.t) (lo hi p : Z)
    (st : state) :
  lo <= p <= hi →
  appends given (job_downloadId j) lo hi st (updateStatus j s (progress_patch p) st).
Proof.
  intros Hp. unfold updateStatus.
  destruct (activeDownloads st !! job_downloadId j); [|by apply appends_refl].
  by apply appends_write with p.
Qed.

Lemma cleanupFiles_db (e : env) (paths : list string) (force : bool) (st : state) :
  db (cleanupFiles e paths force st) = db st.
Proof.
  unfold cleanupFiles. destruct (_ || _); [|done].
  revert st. induction paths as [|p paths IH]; intros st; simpl; [done|].
  rewrite IH. by destruct (Fs.existsSync _ _).
Qed.

Lemma fail_appends (given : Prop) (e : env) (now : Z) (j : job) (message : string)
    (lo hi : Z) (st : state) :
  appends given (job_downloadId j) lo hi st (fail e now j message st).
Proof.
  exists []. unfold fail. rewrite progress_writes_call, String.eqb_refl. simpl.
  rewrite !app_nil_r. split_and!; [|constructor|split; [constructor|done]].
  unfold progress_writes. f_equal. f_equal.
  destruct (activeDownloads st !! job_downloadId j) as [d|] eqn:Hd; simpl.
  - destruct (JS.truthy (downloadPath d)).
    + rewrite cleanupFiles_downloads, Hd. simpl. apply cleanupFiles_db.
    + by rewrite Hd.
  - by rewrite Hd.
Qed.

(** The progress reported by the fallback run starts above the counter
    and stays at or below 55. *)
Lemma fallback_appends (given : Prop) (j : job) (chunks : list string) (st : state)
    (c : Z) :
  35 <= c <= 55 →
  appends given (job_downloadId j) c 55 st
    (foldl (fallback_chunk (updateProgress j)) (st, c) chunks).1.
Proof.
  revert st c. induction chunks as [|dataStr chunks IH]; intros st c Hc.
  - by apply appends_refl.
  - cbn [foldl]. unfold fallback_chunk at 2. cbn [fst snd].
    destruct (JS.includes dataStr "downloading"); [|by apply IH].
    eapply (appends_trans _ _ c (Z.min (c + 2) 55) (Z.min (c + 2) 55) 55);
      [lia | lia | lia | | apply IH; lia].
    apply updateProgress_appends. lia.
Qed.

Lemma updateProgress_keeps (j : job) (p : Z) (st : state) :
  is_Some (activeDownloads (updateProgress j p st) !! job_downloadId j)
  ↔ is_Some (activeDownloads st !! job_downloadId j).
Proof.
  rewrite updateProgress_lookup.
  destruct (activeDownloads st !! job_downloadId j) eqn:Hd; [|done].
  rewrite decide_True by done. split; by eexists.
Qed.

Lemma archive_percent_le (processed total : Z) : archive_percent processed total <= 95.
Proof. unfold archive_percent. lia. Qed.

(** The progress values written during the archiver's events are exactly
    the percentages of those events (none when the record is gone). *)
Lemma archive_fold_writes (j : job) (events : list (Z * Z)) (st : state) :
  progress_writes (job_downloadId j)
    (foldl (archive_progress (updateProgress j)) st events) =
  progress_writes (job_downloadId j) st ++
  match activeDownloads st !! job_downloadId j with
  | Some _ => archive_percents events
  | None => []
  end.
Proof.
  revert st. induction events as [|[processed total] events IH]; intros st.
  - simpl. unfold archive_percents. simpl.
    destruct (activeDownloads st !! job_downloadId j); by rewrite app_nil_r.
  - cbn [foldl]. rewrite IH. unfold archive_progress. cbn [fst snd].
    unfold archive_percents. rewrite filter_cons. cbn [fst snd].
    destruct (Z.ltb_spec 0 total) as [Hpos|Hneg].
    + rewrite decide_True by done. cbn [map fst snd].
      rewrite updateProgress_lookup. unfold updateProgress.
      destruct (activeDownloads st !! job_downloadId j) as [d|] eqn:Hd; [|done].
      rewrite decide_True by done.
      rewrite progress_writes_call, String.eqb_refl. simpl.
      pose proof (archive_percent_le processed total).
      rewrite Z.min_l by lia. rewrite <- app_assoc. done.
    + rewrite decide_False by lia. done.
Qed.

Lemma archive_fold_appends (j : job) (events : list (Z * Z)) (st : state) :
  appends (nondecreasing (65 :: archive_percents events) = true)
    (job_downloadId j) 65 95 st
    (foldl (archive_progress (updateProgress j)) st events).
Proof.
  eexists. split; [apply archive_fold_writes|].
  destruct (activeDownloads st !! job_downloadId j).
  - split.
    + unfold archive_percents. apply Forall_map, Forall_forall.
      intros ev _. apply archive_percent_le.
    + intros Hg. by apply nondecreasing_cons in Hg.
  - split; [constructor|]. intros _. split; [constructor|done].
Qed.

(** Peels the last write off the goal: the bounds of the first part are
    [lo1] and [hi1], those of the last write [lo2] and [hi2]; [last]
    proves the last write. *)
Ltac peel lo1 hi1 lo2 hi2 last :=
  eapply (appends_trans _ _ lo1 hi1 lo2 hi2); [lia | lia | lia | | last].

Lemma downloadWorkshopItem_appends (given : Prop) (e : env) (j : job) (i : inputs)
    (st : state) :
  appends given (job_downloadId j) 30 60 st
    (downloadWorkshopItem e (job_workshopId j) (job_downloadPath j)
       (updateProgress j) i st).1.2.
Proof.
  unfold downloadWorkshopItem. destruct (steamcmd i); [|by apply appends_refl].
  destruct (Adapter.retryDownload _ _ _ _) as [[result|message] a]; cbn [fst snd].
  - peel 30 30 60 60 ltac:(apply updateProgress_appends; lia).
    peel 30 30 30 30 ltac:(by apply appends_refl).
    apply updateProgress_appends. lia.
  - destruct (Adapter.spawn _ _ a) as [p a'].
    assert (appends given (job_downloadId j) 30 55 st
              (foldl (fallback_chunk (updateProgress j))
                 (set_fs (λ _, Adapter.fs a')
                    (updateProgress j 35
                       (set_fs (λ _, Adapter.fs a) (updateProgress j 30 st))), 35)
                 (Adapter.stdout p)).1) as Hfold.
    { peel 30 35 35 55 ltac:(apply fallback_appends; lia).
      peel 30 35 35 35 ltac:(by apply appends_refl).
      peel 30 30 35 35 ltac:(apply updateProgress_appends; lia).
      peel 30 30 30 30 ltac:(by apply appends_refl).
      apply updateProgress_appends. lia. }
    destruct (Adapter.ends p); cbn [fst snd].
    + assert (appends given (job_downloadId j) 30 60 st
                (updateProgress j 60
                   (foldl (fallback_chunk (updateProgress j))
                      (set_fs (λ _, Adapter.fs a')
                         (updateProgress j 35
                            (set_fs (λ _, Adapter.fs a) (updateProgress j 30 st))), 35)
                      (Adapter.stdout p)).1)) as Hclose.
      { peel 30 55 60 60 ltac:(apply updateProgress_appends; lia). exact Hfold. }
      by destruct (_ || _).
    + eapply appends_widen; [| |exact Hfold]; lia.
    + eapply appends_widen; [| |exact Hfold]; lia.
Qed.

Lemma createZipArchive_appends (e : env) (j : job) (run : archive_run) (st : state) :
  appends (nondecreasing (65 :: archive_percents (entries run)) = true)
    (job_downloadId j) 65 100 st
    (createZipArchive e (job_downloadPath j) (job_zipPath j) (job_workshopId j)
       (updateProgress j) run st).2.
Proof.
  unfold createZipArchive. destruct (archive_source _ _ _ _); [|by apply appends_refl].
  assert (appends (nondecreasing (65 :: archive_percents (entries run)) = true)
            (job_downloadId j) 65 95 st
            (set_fs (λ fs, match written run with
                           | Some size => <[job_zipPath j := Fs.File size]> fs
                           | None => delete (job_zipPath j) fs
                           end)
               (foldl (archive_progress (updateProgress j)) st (entries run)))) as Hw.
  { peel 65 95 95 95 ltac:(by apply appends_refl). apply archive_fold_appends. }
  destruct (finish run); cbn [fst snd].
  - destruct (0 <? pointer); cbn [fst snd].
    + peel 65 95 100 100 ltac:(apply updateProgress_appends; lia). exact Hw.
    + eapply appends_widen; [| |exact Hw]; lia.
  - eapply appends_widen; [| |exact Hw]; lia.
  - eapply appends_widen; [| |exact Hw]; lia.
Qed.

Lemma register_archive_appends (given : Prop) (e : env) (now : Z) (j : job)
    (archivePath : string) (how : option string) (st : state) :
  appends given (job_downloadId j) 100 100 st
    (register_archive e now j archivePath how st).
Proof.
  unfold register_archive. destruct (negb _); [apply fail_appends|].
  destruct (_ <? _); [apply fail_appends|].
  unfold updateStatus.
  destruct (activeDownloads st !! job_downloadId j); [|by apply appends_refl].
  by apply appends_write with 100.
Qed.

(** The progress values a whole pipeline writes. *)
Lemma pipeline_appends (e : env) (j : job) (i : inputs) (st : state) :
  appends (nondecreasing (65 :: archive_percents (entries (archive i))) = true)
    (job_downloadId j) 5 100 st (pipeline e j i st).
Proof.
  unfold pipeline.
  set (given := nondecreasing (65 :: archive_percents (entries (archive i))) = true).
  set (st3 := updateStatus j Status.downloading (progress_patch 10)
                (set_fs (λ fs, Fs.ensureDir fs (job_downloadPath j))
                   (updateStatus j Status.preparing (progress_patch 5) st))).
  assert (appends given (job_downloadId j) 5 10 st st3) as H3.
  { subst st3. peel 5 5 10 10 ltac:(apply updateStatus_appends; lia).
    peel 5 5 5 5 ltac:(by apply appends_refl).
    apply updateStatus_appends. lia. }
  pose proof (downloadWorkshopItem_appends given e j i st3) as H4.
  destruct (downloadWorkshopItem _ _ _ _ _ _) as [[[downloadResult|message] st4] now];
    cbn [fst snd] in H4.
  2:{ peel 5 60 60 100 ltac:(apply fail_appends).
      peel 5 10 30 60 ltac:(exact H4). exact H3. }
  assert (appends given (job_downloadId j) 5 60 st st4) as H5.
  { peel 5 10 30 60 ltac:(exact H4). exact H3. }
  destruct (negb (fetched_success downloadResult)).
  { peel 5 60 60 100 ltac:(apply fail_appends). exact H5. }
  destruct (negb (content_downloaded e j (fs st4))).
  { peel 5 60 60 100 ltac:(apply fail_appends). exact H5. }
  pose proof (createZipArchive_appends e j (archive i)
                (updateStatus j Status.creating_archive (progress_patch 65) st4)) as H6.
  fold given in H6.
  destruct (createZipArchive _ _ _ _ _ _ _) as [[archivePath|message] st6];
    cbn [fst snd] in H6.
  - peel 5 100 100 100 ltac:(apply register_archive_appends).
    peel 5 65 65 100 ltac:(exact H6).
    peel 5 60 65 65 ltac:(apply updateStatus_appends; lia). exact H5.
  - peel 5 100 100 100 ltac:(apply fail_appends).
    peel 5 65 65 100 ltac:(exact H6).
    peel 5 60 65 65 ltac:(apply updateStatus_appends; lia). exact H5.
Qed.

(** C5, as amended.  Every progress value written during a pipeline is at
    most 100.  The values written are in non-decreasing order provided
    the percentages derived from the archiver's progress events, after
    the 65 written when the archive phase starts, are themselves in
    non-decreasing order; nothing enforces that order when the archiver
    reports a growing total. *)
Theorem progress_clamped_and_ordered (e : env) (j : job) (i : inputs) (st : state) :
  ∃ new : list Z,
    progress_writes (job_downloadId j) (pipeline e j i st) =
      progress_writes (job_downloadId j) st ++ new
    ∧ Forall (λ p, p <= 100) new
    ∧ (nondecreasing (65 :: archive_percents (entries (archive i))) = true →
       nondecreasing new = true).
Proof.
  destruct (pipeline_appends e j i st) as (new & Hw & Hu & Hs).
  exists new. split_and!; [done | done |]. intros Hg. by apply Hs.
Qed.

Lemma progress_clamped_and_ordered_witness :
  ∃ new : list Z,
    progress_writes "download_1000_1"
      (pipeline Scenario.plain Scenario.first_job Scenario.steady_archive
                Scenario.submitted) =
      progress_writes "download_1000_1" Scenario.submitted ++ new
    ∧ Forall (λ p, p <= 100) new
    ∧ nondecreasing new = true.
Proof.
  destruct (progress_clamped_and_ordered Scenario.plain Scenario.first_job
              Scenario.steady_archive Scenario.submitted) as (new & Hw & Hu & Hs).
  exists new. split_and!; [exact Hw | exact Hu |]. apply Hs. vm_compute. reflexivity.
Defined.

(** C5 as stated fails: when the archiver's total grows from one event to
    the next (1 of 1, then 2 of 4), the progress written for the job goes
    from 95 down to 82. *)
Lemma progress_drops_in_archive :
  ∃ (before after : list Z) (earlier later : Z),
    progress_writes "download_1000_1"
      (pipeline Scenario.plain Scenario.first_job Scenario.growing_archive
                Scenario.submitted) =
      before ++ earlier :: later :: after
    ∧ later < earlier.
Proof.
  exists [5; 10; 30; 60; 65], [95; 100; 100], 95, 82.
  split; [vm_compute; reflexivity | lia].
Qed.

(** ** The downloader's invocations *)

Section AdapterFacts.

Import Adapter.

Lemma trace_emit (ef : effect) (s : Adapter.state) : trace (emit ef s) = trace s ++ [ef].
Proof. reflexivity. Qed.

Lemma quietly_refl (s s' : Adapter.state) :
  retryCount (self s') = retryCount (self s) →
  retryDelay (self s') = retryDelay (self s) →
  effects s' = effects s →
  quietly s s'.
Proof.
  intros Hc Hd He. split_and!; [done | done |]. exists [].
  unfold trace. rewrite He, app_nil_r. by split.
Qed.

Lemma quietly_trans (s s1 s2 : Adapter.state) :
  quietly s s1 → quietly s1 s2 → quietly s s2.
Proof.
  intros (Hc1 & Hd1 & m1 & Ht1 & Hm1) (Hc2 & Hd2 & m2 & Ht2 & Hm2).
  split_and!; [congruence | congruence |]. exists (m1 ++ m2).
  rewrite Ht2, Ht1, app_assoc. split; [done|]. by apply Forall_app.
Qed.

Lemma quietly_spawn (argv : list string) (limit : Z) (s : Adapter.state) :
  quietly s (spawn argv limit s).2.
Proof.
  split_and!; [done | done |]. exists [Spawn argv].
  split; [done|]. by repeat constructor.
Qed.

Lemma quietly_session_ok (s : Adapter.state) : quietly s (session_ok s).
Proof. by apply quietly_refl. Qed.

Lemma quietly_mark (valid : bool) (s : Adapter.state) :
  quietly s (set_self (mark_session valid) s).
Proof. by apply quietly_refl. Qed.

Lemma quietly_verify (s : Adapter.state) : quietly s (verifySessionActive s).2.
Proof.
  unfold verifySessionActive.
  pose proof (quietly_spawn ["+login"; steamUsername (self s); "+quit"] 30000 s) as H.
  destruct (spawn _ _ s) as [p s1]. simpl in H.
  destruct (ends p); [|done|done].
  destruct (seen _ _); [done|]. by destruct (_ || _).
Qed.

Lemma quietly_verify_userdata (n : nat) (s : Adapter.state) :
  quietly s (verify_userdata n s).2.
Proof.
  revert s. induction n as [|n IH]; intros s; [by apply quietly_refl|].
  simpl. pose proof (quietly_verify s) as H.
  destruct (verifySessionActive s) as [isActive s1]. simpl in H.
  destruct isActive.
  - eapply quietly_trans; [exact H | apply quietly_session_ok].
  - eapply quietly_trans; [exact H | apply IH].
Qed.

Lemma quietly_isAuthenticated (s : Adapter.state) : quietly s (isAuthenticated s).2.
Proof.
  unfold isAuthenticated.
  destruct (_ && _); [by apply quietly_refl|].
  destruct (String.eqb _ _); [apply quietly_session_ok|].
  assert (quietly s
            (if saved_login s
             then let '(isActive, s0) := verifySessionActive s in
                  if isActive then (true, session_ok s0) else (false, s0)
             else (false, s)).2) as H1.
  { destruct (saved_login s); [|by apply quietly_refl].
    pose proof (quietly_verify s) as H.
    destruct (verifySessionActive s) as [isActive s1]. simpl in H.
    destruct isActive; [|done].
    eapply quietly_trans; [exact H | apply quietly_session_ok]. }
  destruct (if saved_login s then _ else _) as [found s1]. simpl in H1.
  destruct found; [done|].
  pose proof (quietly_verify_userdata (userdata_configs s1) s1) as H2.
  destruct (verify_userdata _ s1) as [found s2]. simpl in H2.
  destruct found.
  - by eapply quietly_trans.
  - eapply quietly_trans; [exact H1|].
    eapply quietly_trans; [exact H2 | apply quietly_mark].
Qed.

Lemma quietly_cached (w dp app : string) (s : Adapter.state) :
  quietly s (downloadWithCachedSession w dp app s).2.
Proof.
  unfold downloadWithCachedSession.
  match goal with |- context [spawn ?argv ?limit s] =>
    pose proof (quietly_spawn argv limit s) as H; destruct (spawn argv limit s) as [p s1]
  end.
  simpl in H. destruct (ends p); [|done|done].
  destruct (seen _ _).
  - eapply quietly_trans; [exact H | apply quietly_mark].
  - by destruct (has_content _ _).
Qed.

Lemma quietly_full (w dp app : string) (s : Adapter.state) :
  quietly s (downloadWithFullLogin w dp app s).2.
Proof.
  unfold downloadWithFullLogin.
  match goal with |- context [spawn ?argv ?limit s] =>
    pose proof (quietly_spawn argv limit s) as H; destruct (spawn argv limit s) as [p s1]
  end.
  simpl in H. destruct (ends p); [|done|done].
  destruct (seen _ _); [done|].
  destruct (has_content _ _); [|done].
  eapply quietly_trans; [exact H | apply quietly_session_ok].
Qed.

Lemma quietly_anonymous (w dp app : string) (s : Adapter.state) :
  quietly s (downloadAnonymous w dp app s).2.
Proof.
  unfold downloadAnonymous.
  match goal with |- context [spawn ?argv ?limit s] =>
    pose proof (quietly_spawn argv limit s) as H; destruct (spawn argv limit s) as [p s1]
  end.
  simpl in H. destruct (ends p); [|done|done].
  destruct (has_content _ _); [done|]. by destruct (seen _ _).
Qed.

Lemma quietly_downloadWorkshopItem (w dp app : string) (s : Adapter.state) :
  quietly s (Adapter.downloadWorkshopItem w dp app s).2.
Proof.
  unfold Adapter.downloadWorkshopItem.
  pose proof (quietly_isAuthenticated s) as H0.
  destruct (isAuthenticated s) as [isAuth s0]. simpl in H0.
  assert (∀ s', quietly s' (if negb (String.eqb (steamUsername (self s')) "anonymous")
                            then downloadWithFullLogin w dp app s'
                            else downloadAnonymous w dp app s').2) as Hrest.
  { intros s'. destruct (negb _); [apply quietly_full | apply quietly_anonymous]. }
  destruct isAuth.
  - pose proof (quietly_cached w dp app s0) as H1.
    destruct (downloadWithCachedSession w dp app s0) as [[r|message] s1]; simpl in H1.
    + by eapply quietly_trans.
    + destruct (String.eqb message "SESSION_EXPIRED").
      * eapply quietly_trans; [exact H0|]. eapply quietly_trans; [exact H1|].
        eapply quietly_trans; [apply quietly_mark | apply Hrest].
      * by eapply quietly_trans.
  - eapply quietly_trans; [exact H0 | apply Hrest].
Qed.

(** *** The retry loop *)

Lemma attempts_of_app (l1 l2 : list effect) :
  attempts_of (l1 ++ l2) = attempts_of l1 ++ attempts_of l2.
Proof. apply omap_app. Qed.

Lemma sleeps_of_app (l1 l2 : list effect) :
  sleeps_of (l1 ++ l2) = sleeps_of l1 ++ sleeps_of l2.
Proof. apply omap_app. Qed.

Lemma attempts_of_cons (ef : effect) (l : list effect) :
  attempts_of (ef :: l) =
  match ef with Attempt n => n :: attempts_of l | _ => attempts_of l end.
Proof. by destruct ef. Qed.

Lemma sleeps_of_cons (ef : effect) (l : list effect) :
  sleeps_of (ef :: l) =
  match ef with Sleep ms => ms :: sleeps_of l | _ => sleeps_of l end.
Proof. by destruct ef. Qed.

Lemma spawns_no_attempts (more : list effect) :
  Forall is_spawn more → attempts_of more = [] ∧ sleeps_of more = [].
Proof.
  induction 1 as [|ef more Hef _ [IHa IHs]]; [done|].
  destruct ef; done.
Qed.

Lemma obeys_attempt (count delay a : Z) (rest : list effect) :
  obeys count delay (Attempt a :: rest) = obeys count delay rest.
Proof. reflexivity. Qed.

Lemma obeys_spawns (count delay : Z) (more rest : list effect) :
  Forall is_spawn more → obeys count delay (more ++ rest) = obeys count delay rest.
Proof.
  induction 1 as [|ef more Hef _ IH]; [done|]. by destruct ef.
Qed.

(** The loop from attempt number [attempt] on, with [remaining]
    iterations left: it announces the attempts [attempt],
    [attempt + 1], ... one after the other, waits between them as the
    policy says, and ends before the last one only on a success or on an
    error that makes it give up. *)
Lemma retry_from_policy (remaining : nat) (attempt : Z) (lastError w dp app : string)
    (s : Adapter.state) :
  (0 < remaining)%nat →
  retryCount (self s) = attempt + Z.of_nat remaining - 1 →
  let r := retry_from remaining attempt lastError w dp app s in
  ∃ (n : nat) (new : list effect),
    (1 ≤ n ≤ remaining)%nat
    ∧ trace r.2 = trace s ++ new
    ∧ attempts_of new = seqZ attempt (Z.of_nat n)
    ∧ sleeps_of new = (λ k, retryDelay (self s) * k) <$> seqZ attempt (Z.of_nat n - 1)
    ∧ obeys (retryCount (self s)) (retryDelay (self s)) new = true
    ∧ (∃ first, new = Attempt attempt :: first)
    ∧ ((n < remaining)%nat →
       (∃ res, r.1 = Resolved res) ∨ (∃ m, r.1 = Rejected m ∧ gives_up m = true))
    ∧ (∀ m, r.1 = Rejected m →
         gives_up m = true
         ∨ (n = remaining
            ∧ ∃ last, m = "Failed after " +:+ pretty (retryCount (self s)) +:+
                          " attempts. Last error: " +:+ last)).
Proof.
  revert attempt lastError s.
  induction remaining as [|remaining IH]; intros attempt lastError s Hpos Hcount; [lia|].
  intros r. subst r. cbn [retry_from].
  set (s1 := if (1 <? attempt) && Fs.existsSync (fs (emit (Attempt attempt) s))
                                    (JS.path_join dp "steamapps")
             then emit (Remove (JS.path_join dp "steamapps"))
                    (set_fs (λ fs, Fs.remove fs (JS.path_join dp "steamapps"))
                       (emit (Attempt attempt) s))
             else emit (Attempt attempt) s) in *.
  assert (∃ pre, trace s1 = trace s ++ Attempt attempt :: pre
                 ∧ attempts_of pre = [] ∧ sleeps_of pre = []
                 ∧ (∀ c d rest, obeys c d (pre ++ rest) = obeys c d rest)
                 ∧ retryCount (self s1) = retryCount (self s)
                 ∧ retryDelay (self s1) = retryDelay (self s))
    as (pre & Hs1 & Hpa & Hps & Hpo & Hc1 & Hd1).
  { subst s1. destruct (_ && _).
    - exists [Remove (JS.path_join dp "steamapps")].
      unfold trace. simpl. rewrite <- app_assoc. done.
    - exists []. done. }
  pose proof (quietly_downloadWorkshopItem w dp app s1) as Hq.
  destruct (Adapter.downloadWorkshopItem w dp app s1) as [outcome s2].
  destruct Hq as (Hc2 & Hd2 & more & Hs2 & Hmore). simpl in Hc2, Hd2, Hs2.
  destruct (spawns_no_attempts more Hmore) as [Hma Hms].
  set (verdict := match outcome with
                  | Resolved result =>
                      if success result && JS.truthy (path result)
                         && has_content (fs s2) (path result)
                      then Resolved result
                      else Rejected "Download verification failed"
                  | Rejected message => Rejected message
                  end).
  destruct verdict as [result|message].
  { (* the attempt succeeds *)
    exists 1%nat, (Attempt attempt :: pre ++ more). cbn [fst snd].
    split_and!; [lia | lia | | | | | by eexists | by left; eexists | done].
    - rewrite Hs2, Hs1, <- app_assoc. done.
    - by rewrite attempts_of_cons, attempts_of_app, Hpa, Hma.
    - by rewrite sleeps_of_cons, sleeps_of_app, Hps, Hms.
    - rewrite obeys_attempt, Hpo. rewrite <- (app_nil_r more). by rewrite obeys_spawns. }
  destruct (gives_up message) eqn:Hgive.
  { (* the error makes the loop give up *)
    exists 1%nat, (Attempt attempt :: pre ++ more ++ [Failure attempt message]). cbn [fst snd].
    split_and!; [lia | lia | | | | | by eexists | by right; eexists | ].
    - rewrite trace_emit, Hs2, Hs1, <- !app_assoc. done.
    - by rewrite attempts_of_cons, !attempts_of_app, Hpa, Hma.
    - by rewrite sleeps_of_cons, !sleeps_of_app, Hps, Hms.
    - rewrite obeys_attempt, Hpo, obeys_spawns by done. cbn [obeys]. by rewrite Hgive.
    - intros m [= <-]. by left. }
  (* the attempt fails and the loop goes on *)
  destruct remaining as [|remaining].
  { (* it was the last attempt *)
    assert (attempt = retryCount (self s)) as Hlast by lia.
    assert ((attempt <? retryCount (self (emit (Failure attempt message) s2))) = false)
      as Hno.
    { apply Z.ltb_ge. simpl. lia. }
    rewrite Hno. cbn [retry_from fst snd].
    exists 1%nat, (Attempt attempt :: pre ++ more ++ [Failure attempt message]). cbn [fst snd].
    split_and!; [lia | lia | | | | | by eexists | lia | ].
    - rewrite trace_emit, Hs2, Hs1, <- !app_assoc. done.
    - by rewrite attempts_of_cons, !attempts_of_app, Hpa, Hma.
    - by rewrite sleeps_of_cons, !sleeps_of_app, Hps, Hms.
    - rewrite obeys_attempt, Hpo, obeys_spawns by done. cbn [obeys]. rewrite Hgive.
      rewrite (proj2 (Z.ltb_ge attempt (retryCount (self s)))) by lia. done.
    - intros m [= <-]. right. split; [done|]. exists message.
      simpl. by rewrite Hc2, Hc1. }
  assert ((attempt <? retryCount (self (emit (Failure attempt message) s2))) = true)
    as Hyes.
  { apply Z.ltb_lt. simpl. lia. }
  rewrite Hyes.
  set (s3 := advance _ (emit (Sleep _) (emit (Failure attempt message) s2))).
  assert (retryCount (self s3) = retryCount (self s)) as Hc3 by (simpl; congruence).
  assert (retryDelay (self s3) = retryDelay (self s)) as Hd3 by (simpl; congruence).
  destruct (IH (attempt + 1) message s3 ltac:(lia) ltac:(lia))
    as (n & new & Hn & Ht & Ha & Hsl & Hob & [first Hfirst] & Hearly & Hrej).
  exists (S n),
    (Attempt attempt :: pre ++ more ++
       Failure attempt message :: Sleep (retryDelay (self s) * attempt) :: new).
  split_and!.
  - lia.
  - lia.
  - rewrite Ht. subst s3. unfold advance at 1. unfold trace at 1. simpl.
    change (rev (effects s2)) with (trace s2).
    rewrite Hs2, Hs1, Hd2, Hd1, <- !app_assoc. simpl. done.
  - rewrite attempts_of_cons, !attempts_of_app, Hpa, Hma, !attempts_of_cons, Ha.
    rewrite (seqZ_cons attempt (Z.of_nat (S n))) by lia.
    simpl. f_equal. f_equal; lia.
  - rewrite sleeps_of_cons, !sleeps_of_app, Hps, Hms, !sleeps_of_cons, Hsl, Hd3.
    rewrite (seqZ_cons attempt (Z.of_nat (S n) - 1)) by lia.
    rewrite fmap_cons. simpl. f_equal. f_equal. f_equal; lia.
  - rewrite obeys_attempt, Hpo, obeys_spawns by done. cbn [obeys]. rewrite Hgive.
    rewrite (proj2 (Z.ltb_lt attempt (retryCount (self s)))) by lia.
    rewrite Hfirst. rewrite Hfirst, Hc3, Hd3 in Hob.
    rewrite !Z.eqb_refl. rewrite obeys_attempt in Hob. cbn [andb]. exact Hob.
  - by eexists.
  - intros Hlt. apply Hearly. lia.
  - intros m Hm. destruct (Hrej m Hm) as [?|[-> [last ->]]]; [by left|].
    right. split; [done|]. exists last. by rewrite Hc3.
Qed.

(** When the retry loop has rejected, the server's
    [downloadWorkshopItem] starts one more run of the steam client, and a
    run that exits with code 0 without an error marker resolves the
    download. *)
Lemma fallback_after_rejection (e : env) (workshop downloadPath : string)
    (progressCallback : Z → Server.state → Server.state) (i : inputs)
    (st : Server.state) (steamcmdPath message : string) (a : Adapter.state)
    (p : proc) (rest : list proc) :
  steamcmd i = Some steamcmdPath →
  retryDownload workshop downloadPath (JS.or_default (DAYZ_APP_ID e) "221100")
    (downloader_world e steamcmdPath i (progressCallback 30 st)) = (Rejected message, a) →
  script a = p :: rest →
  ends p = Closed 0 →
  seen ["ERROR!"; "failed (Failure)"; "No subscription"; "Access Denied"; "Item not found"]
       (stdout p) = false →
  (Server.downloadWorkshopItem e workshop downloadPath progressCallback i st).1.1 =
    Resolved {| fetched_success := true; fetched_output := output_of (stdout p);
                fetched_method := None |}.
Proof.
  intros Hcmd Hretry Hscript Hends Hclean. unfold Server.downloadWorkshopItem.
  rewrite Hcmd. cbv zeta. rewrite Hretry. unfold spawn. rewrite Hscript. cbn [fst snd].
  rewrite Hends, Hclean. reflexivity.
Qed.

(** C3, as amended.  The retry loop makes between one and five attempts,
    numbered from 1.  An attempt that fails with a message containing
    STEAM_GUARD_REQUIRED ends the loop at once, with that error; every
    other failed attempt before the fifth (no content, access denied, a
    timeout, ...) is followed by a wait of 10000 ms times the attempt
    number and by the next attempt; the failure of the fifth attempt ends
    the loop with "Failed after 5 attempts. Last error: ...".  The loop
    ends before the fifth attempt only on a success or on a
    STEAM_GUARD_REQUIRED error.  A rejection of the loop does not fail
    the job at once: the server then starts one more run of the steam
    client, whose clean exit resolves the download. *)
Theorem retry_gives_up_only_for_steam_guard (w dp app : string) (s : Adapter.state) :
  retryCount (self s) = 5 →
  retryDelay (self s) = 10000 →
  let r := retryDownload w dp app s in
  (∃ (n : nat) (new : list effect),
     (1 ≤ n ≤ 5)%nat
     ∧ trace r.2 = trace s ++ new
     ∧ attempts_of new = seqZ 1 (Z.of_nat n)
     ∧ sleeps_of new = (λ k, 10000 * k) <$> seqZ 1 (Z.of_nat n - 1)
     ∧ obeys 5 10000 new = true
     ∧ ((n < 5)%nat →
        (∃ res, r.1 = Resolved res) ∨ (∃ m, r.1 = Rejected m ∧ gives_up m = true))
     ∧ (∀ m, r.1 = Rejected m →
          gives_up m = true
          ∨ (n = 5%nat ∧ ∃ last, m = "Failed after 5 attempts. Last error: " +:+ last)))
  ∧ (∀ (e : env) (progressCallback : Z → Server.state → Server.state) (i : inputs)
       (st : Server.state) (steamcmdPath message : string) (a : Adapter.state)
       (p : proc) (rest : list proc),
       steamcmd i = Some steamcmdPath →
       retryDownload w dp (JS.or_default (DAYZ_APP_ID e) "221100")
         (downloader_world e steamcmdPath i (progressCallback 30 st))
         = (Rejected message, a) →
       script a = p :: rest →
       ends p = Closed 0 →
       seen ["ERROR!"; "failed (Failure)"; "No subscription"; "Access Denied";
             "Item not found"] (stdout p) = false →
       (Server.downloadWorkshopItem e w dp progressCallback i st).1.1 =
         Resolved {| fetched_success := true; fetched_output := output_of (stdout p);
                     fetched_method := None |}).
Proof.
  intros Hcount Hdelay r. split.
  - subst r. unfold retryDownload. rewrite Hcount.
    destruct (retry_from_policy (Z.to_nat 5) 1 "" w dp app s ltac:(lia) ltac:(lia))
      as (n & new & Hn & Ht & Ha & Hs & Hob & _ & Hearly & Hrej).
    rewrite Hcount, Hdelay in *. change (Z.to_nat 5) with 5%nat in *.
    exists n, new. split_and!; try done; try lia.
  - intros e progressCallback i st steamcmdPath message a p rest.
    apply fallback_after_rejection.
Qed.

Lemma retry_gives_up_only_for_steam_guard_witness :
  let r := retryDownload "1559212036" "/tmp/dayz-workshop-downloads/download_1000_1"
             "221100" Scenario.denied_world in
  ∃ (n : nat) (new : list effect),
    (1 ≤ n ≤ 5)%nat
    ∧ trace r.2 = trace Scenario.denied_world ++ new
    ∧ attempts_of new = seqZ 1 (Z.of_nat n)
    ∧ sleeps_of new = (λ k, 10000 * k) <$> seqZ 1 (Z.of_nat n - 1)
    ∧ obeys 5 10000 new = true.
Proof.
  intros r.
  destruct (retry_gives_up_only_for_steam_guard "1559212036"
              "/tmp/dayz-workshop-downloads/download_1000_1" "221100"
              Scenario.denied_world eq_refl eq_refl)
    as [(n & new & Hn & Ht & Ha & Hs & Hob & _) _].
  exists n, new. split_and!; [apply Hn | apply Hn | exact Ht | exact Ha | exact Hs | exact Hob].
Defined.

(** C3 as stated fails: a run refused with "Access Denied", which leaves
    no content, is retried; the loop makes all five attempts, with the
    four waits in between. *)
Lemma access_denied_is_retried :
  let r := retryDownload "1559212036" "/tmp/dayz-workshop-downloads/download_1000_1"
             "221100" Scenario.denied_world in
  seen ["No subscription"; "Access Denied"; "Item not found"]
       (stdout Scenario.denied_run) = true
  ∧ attempts_of (trace r.2) = [1; 2; 3; 4; 5]
  ∧ sleeps_of (trace r.2) = [10000; 20000; 30000; 40000]
  ∧ r.1 = Rejected "Failed after 5 attempts. Last error: Download failed: SteamCMD error".
Proof. vm_compute. done. Qed.

(** *** Content verification *)

Lemma spawn_scripted (argv : list string) (limit : Z) (s : Adapter.state) (p : proc)
    (rest : list proc) (code : Z) :
  script s = p :: rest → ends p = Closed code →
  ∃ s1, spawn argv limit s = (p, s1) ∧ fs s1 = leaves p (fs s).
Proof.
  intros Hscript Hends. unfold spawn. rewrite Hscript. by eexists.
Qed.

(** A download resolves only with the expected directory, found
    non-empty on disk. *)
Lemma resolved_has_content (w dp app : string) (s s' : Adapter.state) (r : result) :
  downloadWithCachedSession w dp app s = (Resolved r, s')
  ∨ downloadWithFullLogin w dp app s = (Resolved r, s')
  ∨ downloadAnonymous w dp app s = (Resolved r, s') →
  path r = expectedPath dp app w ∧ has_content (fs s') (path r) = true.
Proof.
  intros [H|[H|H]]; revert H.
  - unfold downloadWithCachedSession. destruct (spawn _ _ s) as [p s1].
    destruct (ends p); [|congruence|congruence].
    destruct (seen _ _); [congruence|].
    destruct (has_content (fs s1) _) eqn:Hc; [|congruence].
    intros [= <- <-]. done.
  - unfold downloadWithFullLogin. destruct (spawn _ _ s) as [p s1].
    destruct (ends p); [|congruence|congruence].
    destruct (seen _ _); [congruence|].
    destruct (has_content (fs s1) _) eqn:Hc; [|congruence].
    intros [= <- <-]. done.
  - unfold downloadAnonymous. destruct (spawn _ _ s) as [p s1].
    destruct (ends p); [|congruence|congruence].
    destruct (has_content (fs s1) _) eqn:Hc; [|destruct (seen _ _); congruence].
    intros [= <- <-]. done.
Qed.




End AdapterFacts.

(** ** Record ids of the log bus *)

Section LoggerFacts.

Import Double Logger.

Lemma one_pos : 0 < one.
Proof. unfold one. apply Z.pow_pos_nonneg; lia. Qed.

(** Rounding never crosses a multiple of [one] that lies below 2^53. *)
Lemma round_double_bounds (x m : Z) :
  0 <= x < 2 ^ 53 * one → 0 <= m →
  (x <= m * one → round_double x <= m * one)
  ∧ (m * one <= x → m * one <= round_double x).
Proof.
  intros [Hx0 Hx] Hm. unfold round_double.
  destruct (Z.leb_spec (Z.log2 x - 52) 0) as [Hsmall|Hbig]; [done|].
  set (s := Z.log2 x - 52) in *.
  assert (0 < x) as Hxpos.
  { destruct (Z.eq_dec x 0) as [->|?]; [|lia]. subst s. simpl in Hbig. lia. }
  assert (s <= 1074) as Hs.
  { assert (Z.log2 x < 1127); [|lia].
    apply Z.log2_lt_pow2; [done|].
    replace (2 ^ 1127) with (2 ^ 53 * one); [done|].
    unfold one. rewrite <- Z.pow_add_r by lia. done. }
  assert (one = 2 ^ (1074 - s) * 2 ^ s) as Hone.
  { unfold one. rewrite <- Z.pow_add_r by lia. f_equal. lia. }
  assert (0 < 2 ^ s) as HP by (apply Z.pow_pos_nonneg; lia).
  assert (0 < 2 ^ (s - 1)) as Hhalf by (apply Z.pow_pos_nonneg; lia).
  assert (0 < 2 ^ (1074 - s)) as HB by (apply Z.pow_pos_nonneg; lia).
  pose proof (Z.div_mod x (2 ^ s) ltac:(lia)) as Hdm.
  pose proof (Z.mod_pos_bound x (2 ^ s) HP) as Hr.
  remember (2 ^ s) as P eqn:HeqP. remember (2 ^ (s - 1)) as half eqn:Heqhalf.
  remember (2 ^ (1074 - s)) as B eqn:HeqB.
  remember (x / P) as q eqn:Heqq. remember (x mod P) as r eqn:Heqr.
  rewrite Hone. clear Hone HeqP Heqhalf HeqB Heqq Heqr.
  assert (∀ q', q <= q' <= q + 1 → (r = 0 → q' = q) →
                (x <= m * (B * P) → q' * P <= m * (B * P))
                ∧ (m * (B * P) <= x → m * (B * P) <= q' * P)) as Hgen.
  { intros q' Hq' Hexact. split; intros Hle.
    - assert (q <= m * B) by nia.
      destruct (Z.eq_dec q (m * B)) as [Heq|Hne].
      + rewrite Hexact by nia. nia.
      + nia.
    - assert (m * B <= q) by nia. nia. }
  destruct (Z.ltb_spec r half); [apply Hgen; lia|].
  destruct (Z.ltb_spec half r); [apply Hgen; lia|].
  destruct (Z.even q); apply Hgen; lia.
Qed.

(** An id lies between the clock reading and the next millisecond. *)
Lemma fresh_id_bounds (now random : Z) :
  0 <= now < 2 ^ 53 - 1 → 0 <= random < one →
  now * one <= fresh_id now random <= (now + 1) * one.
Proof.
  intros Hnow Hrandom. unfold fresh_id. pose proof one_pos.
  assert (0 <= now * one + random < 2 ^ 53 * one) as Hx by nia.
  split.
  - apply (round_double_bounds _ now Hx); lia.
  - apply (round_double_bounds _ (now + 1) Hx); lia.
Qed.

Lemma nondecreasing_snoc (bound x : Z) (l : list Z) :
  nondecreasing l = true → Forall (λ i, i <= bound) l → bound <= x →
  nondecreasing (l ++ [x]) = true.
Proof.
  intros Hl Hb Hx. apply (nondecreasing_app bound); [done | done | done |].
  by repeat constructor.
Qed.

Lemma nondecreasing_drop (n : nat) (l : list Z) :
  nondecreasing l = true → nondecreasing (drop n l) = true.
Proof.
  revert l. induction n as [|n IH]; intros l Hl; [exact Hl|].
  destruct l as [|a l]; [reflexivity|]. simpl. apply IH.
  apply nondecreasing_cons in Hl as [_ Hl]. exact Hl.
Qed.

Lemma Forall_le_widen (b b' : Z) (l : list Z) :
  b <= b' → Forall (λ i, i <= b) l → Forall (λ i, i <= b') l.
Proof.
  intros Hb Hl. eapply Forall_impl; [exact Hl|]. intros x Hx. simpl in Hx. lia.
Qed.

Lemma ordered_below_widen (b b' : Z) (st : logger) :
  b <= b' → ordered_below b st → ordered_below b' st.
Proof.
  intros Hb (Hh & Hhb & Hs). split_and!; [done | by eapply Forall_le_widen |].
  intros ws sk Hsk. destruct (Hs ws sk Hsk) as [Hn Hf].
  split; [done | by eapply Forall_le_widen].
Qed.

(** Sending a record whose id dominates everything received so far keeps
    every inbox in order. *)
Lemma send_entry_ordered (ws : nat) (entry : logEntry) (st st' : logger) :
  ordered_below (id entry) st →
  send ws (EntryFrame entry) st = Some st' →
  ordered_below (id entry) st'.
Proof.
  intros (Hh & Hhb & Hs). unfold send.
  destruct (sockets st !! ws) as [sk|] eqn:Hsk; [|done].
  destruct (_ || _); [done|]. intros [= <-]. split_and!; [done | done |].
  intros ws' sk'. simpl. rewrite lookup_insert. case_decide as Heq; [|apply Hs].
  intros [= <-]. destruct (Hs ws sk Hsk) as [Hn Hf].
  unfold received_ids in *. simpl. rewrite flat_map_app. simpl. split.
  - by apply (nondecreasing_snoc (id entry)).
  - apply Forall_app. split; [done|]. by repeat constructor.
Qed.

Lemma broadcast_ordered (entry : logEntry) (st : logger) :
  ordered_below (id entry) st → ordered_below (id entry) (broadcast entry st).
Proof.
  unfold broadcast. generalize (elements (clients st)). intros l. revert st.
  induction l as [|client l IH]; intros st Hst; [done|].
  simpl. apply IH. unfold broadcast_to.
  destruct (is_open client st); [|done].
  destruct (send client (EntryFrame entry) st) eqn:Hsend; [|done].
  by eapply send_entry_ordered.
Qed.

Lemma log_ordered (bound now random stamp : Z) (lvl src msg : string)
    (st : logger) :
  ordered_below bound st →
  bound <= fresh_id now random →
  ordered_below (fresh_id now random) (log now random stamp lvl src msg st).
Proof.
  intros (Hh & Hhb & Hs) Hnew. unfold log.
  set (entry := {| id := fresh_id now random; timestamp := stamp; level := lvl;
                   source := src; message := msg |}).
  apply (broadcast_ordered entry). split_and!.
  - simpl. destruct (_ <? _)%nat.
    + unfold slice_last. rewrite <- skipn_map. apply nondecreasing_drop.
      rewrite map_app. simpl. by apply (nondecreasing_snoc bound).
    + rewrite map_app. simpl. by apply (nondecreasing_snoc bound).
  - simpl.
    assert (Forall (λ i, i <= fresh_id now random)
              (map id (logHistory st ++ [entry]))) as Hall.
    { rewrite map_app. apply Forall_app. split.
      - by eapply Forall_le_widen.
      - simpl. by repeat constructor. }
    destruct (_ <? _)%nat; [|done].
    unfold slice_last. rewrite <- skipn_map. by apply Forall_drop.
  - intros ws sk Hsk. destruct (Hs ws sk Hsk) as [Hn Hf].
    split; [done | by eapply Forall_le_widen].
Qed.

Lemma socket_replaced_ordered (b b' : Z) (st : logger) (cl : gset nat) (ws : nat)
    (sk : socket) :
  ordered_below b st → b <= b' →
  nondecreasing (received_ids sk) = true →
  Forall (λ i, i <= b') (received_ids sk) →
  ordered_below b'
    {| clients := cl; logHistory := logHistory st; maxHistorySize := maxHistorySize st;
       sockets := <[ws := sk]> (sockets st) |}.
Proof.
  intros (Hh & Hhb & Hs) Hb Hn Hf. split_and!; [done | by eapply Forall_le_widen |].
  intros ws' sk'. simpl. rewrite lookup_insert. case_decide; [by intros [= <-]|].
  intros Hsk. destruct (Hs ws' sk' Hsk) as [Hn' Hf'].
  split; [done | by eapply Forall_le_widen].
Qed.

(** What a new connection leaves: the new socket holds the burst (when
    there is history) and the welcome record, or less when [send]
    throws; nothing else changes. *)
Lemma connection_inbox (faulty : bool) (now random stamp : Z) (st : logger) :
  ∃ received,
    connection faulty now random stamp st =
      {| clients := {[size (sockets st)]} ∪ clients st; logHistory := logHistory st;
         maxHistorySize := maxHistorySize st;
         sockets := <[size (sockets st) :=
                        {| ready := OPEN; failing := faulty; inbox := received |}]>
                      (sockets st) |}
    ∧ ∃ burst welcome,
        received = burst ++ welcome
        ∧ (burst = [] ∨ burst = [HistoryFrame (slice_last 50 (logHistory st))])
        ∧ (welcome = []
           ∨ welcome = [EntryFrame {| id := fresh_id now random; timestamp := stamp;
                                      level := "info"; source := "backend";
                                      message := "WebSocket connection established" |}]).
Proof.
  unfold connection, sendToClient, is_open, send.
  cbn [sockets clients logHistory maxHistorySize].
  destruct (0 <? length (logHistory st))%nat; destruct faulty; eexists;
    rewrite ?lookup_insert_eq; cbn [ready failing inbox orb negb];
    rewrite ?bool_decide_eq_true_2 by done;
    cbn [orb negb sockets clients logHistory maxHistorySize];
    rewrite ?lookup_insert_eq; cbn [ready failing inbox orb negb];
    rewrite ?bool_decide_eq_true_2 by done;
    cbn [orb negb sockets clients logHistory maxHistorySize];
    rewrite ?insert_insert_eq.
  - split; [reflexivity|]. exists [], []. split_and!; [done | by left | by left].
  - split; [reflexivity|].
    eexists [_], [_]. split_and!; [reflexivity | by right | by right].
  - split; [reflexivity|]. exists [], []. split_and!; [done | by left | by left].
  - split; [reflexivity|].
    eexists [], [_]. split_and!; [reflexivity | by left | by right].
Qed.

Lemma connection_ordered (bound now random stamp : Z) (faulty : bool) (st : logger) :
  ordered_below bound st →
  bound <= fresh_id now random →
  ordered_below (fresh_id now random) (connection faulty now random stamp st).
Proof.
  intros Hst Hnew.
  destruct (connection_inbox faulty now random stamp st)
    as (received & -> & burst & welcome & -> & Hburst & Hwelcome).
  destruct Hst as (Hh & Hhb & Hs).
  assert (nondecreasing (flat_map frame_ids burst) = true
          ∧ Forall (λ i, i <= bound) (flat_map frame_ids burst)) as [Hbn Hbb].
  { destruct Hburst as [->| ->]; [by split|]. simpl. rewrite app_nil_r.
    unfold slice_last. rewrite <- skipn_map.
    split; [by apply nondecreasing_drop | by apply Forall_drop]. }
  apply (socket_replaced_ordered bound); [by split_and! | done | |];
    unfold received_ids; cbn [inbox]; rewrite flat_map_app.
  - destruct Hwelcome as [->| ->]; simpl.
    + by rewrite app_nil_r.
    + by apply (nondecreasing_snoc bound).
  - apply Forall_app. split; [by eapply Forall_le_widen|].
    destruct Hwelcome as [->| ->]; simpl; by repeat constructor.
Qed.

(** One operation, given the bound that holds before it. *)
Lemma step_ordered (last : Z) (o : op) (st : logger) :
  -1 <= last →
  ordered_below ((last + 1) * one) st →
  match reading o with
  | Some (now, random) =>
      last < now → now < 2 ^ 53 - 1 → 0 <= random < one →
      ordered_below ((now + 1) * one) (step st o)
  | None => ordered_below ((last + 1) * one) (step st o)
  end.
Proof.
  intros Hlast Hst. pose proof one_pos as Hone.
  assert (∀ now random, last < now → now < 2 ^ 53 - 1 → 0 <= random < one →
            (last + 1) * one <= fresh_id now random
            ∧ fresh_id now random <= (now + 1) * one) as Hid.
  { intros now random Hlt Hmax Hr.
    pose proof (fresh_id_bounds now random ltac:(lia) Hr). nia. }
  destruct o; cbn [reading step].
  - intros Hlt Hmax Hr. destruct (Hid now random Hlt Hmax Hr) as [Hlo Hhi].
    eapply ordered_below_widen; [exact Hhi|]. by eapply connection_ordered.
  - intros Hlt Hmax Hr. destruct (Hid now random Hlt Hmax Hr) as [Hlo Hhi].
    eapply ordered_below_widen; [exact Hhi|]. by eapply log_ordered.
  - intros Hlt Hmax Hr. destruct (Hid now random Hlt Hmax Hr) as [Hlo Hhi].
    eapply ordered_below_widen; [exact Hhi|]. unfold clearHistory.
    eapply log_ordered; [|exact Hlo].
    destruct Hst as (_ & _ & Hs). split_and!; [done | constructor | done].
  - destruct Hst as (Hh & Hhb & Hs). split_and!; [done | done |].
    intros ws' sk'. simpl. rewrite lookup_alter. case_decide; [|apply Hs].
    destruct (sockets st !! ws) as [sk|] eqn:Hsk; [|done]. simpl.
    intros [= <-]. subst ws'. apply (Hs ws sk Hsk).
  - done.
  - destruct Hst as (Hh & Hhb & Hs). split_and!; [done | done |].
    intros ws' sk'. simpl. rewrite lookup_alter. case_decide; [|apply Hs].
    destruct (sockets st !! ws) as [sk|] eqn:Hsk; [|done]. simpl.
    intros [= <-]. subst ws'. apply (Hs ws sk Hsk).
Qed.

Lemma run_ordered (ops : list op) (last : Z) (st : logger) :
  -1 <= last →
  ordered_below ((last + 1) * one) st →
  ticking last ops = true →
  ∃ bound, ordered_below bound (foldl step st ops).
Proof.
  revert last st. induction ops as [|o ops IH]; intros last st Hlast Hst Hticks.
  - by eexists.
  - cbn [foldl]. cbn [ticking] in Hticks.
    pose proof (step_ordered last o st Hlast Hst) as Hstep.
    destruct (reading o) as [[now random]|].
    + repeat (apply andb_true_iff in Hticks as [Hticks ?]).
      apply (IH now); [lia | | done].
      apply Hstep; lia.
    + by apply (IH last).
Qed.




(** Rounding can make the ids of successive milliseconds coincide: the
    draw 1 - 2^-53 at one reading and the draw 0 at the next. *)
Lemma ids_can_coincide :
  fresh_id 1700000000000 (one - 2 ^ 1021) = fresh_id 1700000000001 0.
Proof. vm_compute. reflexivity. Qed.

End LoggerFacts.

(** * Further properties of the code *)

(** ** The workshop id read off a URL *)

Lemma take_digits_only_digits (s : string) : JS.only_digits (JS.take_digits s) = true.
Proof.
  induction s as [|c s IH]; [done|]. simpl.
  destruct (JS.is_digit c) eqn:Hc; [|done]. simpl. by rewrite Hc.
Qed.

Lemma take_digits_app (w rest : string) :
  JS.only_digits w = true → JS.take_digits rest = "" →
  JS.take_digits (w +:+ rest) = w.
Proof.
  intros Hw Hrest. induction w as [|c w IH]; [done|].
  simpl in *. apply andb_true_iff in Hw as [-> Hw]. by rewrite IH.
Qed.

Lemma extractWorkshopId_cons (c : ascii) (url : string) :
  extractWorkshopId (String c url) =
  if String.prefix "id=" (String c url)
     && JS.truthy (JS.take_digits (JS.drop_chars 3 (String c url)))
  then Some (JS.take_digits (JS.drop_chars 3 (String c url)))
  else extractWorkshopId url.
Proof. reflexivity. Qed.

Lemma extractWorkshopId_number (url workshop : string) :
  extractWorkshopId url = Some workshop → JS.is_number workshop = true.
Proof.
  induction url as [|c url IH]; [done|].
  rewrite extractWorkshopId_cons.
  destruct (String.prefix "id=" (String c url) && _) eqn:Hm; [|exact IH].
  intros Heq. apply (inj Some) in Heq. subst workshop.
  apply andb_true_iff in Hm as [_ Hm].
  unfold JS.is_number. by rewrite Hm, take_digits_only_digits.
Qed.

(** X1.  Whatever the URL, the workshop id that [extractWorkshopId]
    returns is a non-empty string of digits: it holds no separator, dot
    or space when it is put into a path or handed to the steam client. *)
Theorem extracted_id_is_a_number (url workshop : string) :
  extractWorkshopId url = Some workshop → JS.is_number workshop = true.
Proof. apply extractWorkshopId_number. Qed.

Lemma extracted_id_is_a_number_witness :
  JS.is_number "1559212036" = true.
Proof.
  apply (extracted_id_is_a_number
           "https://steamcommunity.com/sharedfiles/filedetails/?id=1559212036&searchtext=").
  reflexivity.
Defined.

Lemma append_cons (c : ascii) (s t : string) : String c s +:+ t = String c (s +:+ t).
Proof. reflexivity. Qed.

Lemma append_empty (t : string) : "" +:+ t = t.
Proof. reflexivity. Qed.

Lemma prefix_id_inv (s : string) :
  String.prefix "id=" s = true → ∃ rest, s = "id=" +:+ rest.
Proof.
  destruct s as [|c1 [|c2 [|c3 rest]]]; cbn [String.prefix]; try discriminate.
  - by destruct (ascii_dec "i" c1).
  - destruct (ascii_dec "i" c1); [|discriminate]. by destruct (ascii_dec "d" c2).
  - destruct (ascii_dec "i" c1); [|discriminate].
    destruct (ascii_dec "d" c2); [|discriminate].
    destruct (ascii_dec "=" c3); [|discriminate].
    subst. by exists rest.
Qed.

(** X2.  Reading back: when [id=] followed by a non-empty string of
    digits is put after a text that holds no such match, and is not
    followed by a further digit, [extractWorkshopId] returns exactly
    those digits. *)
Theorem id_read_back (before workshop rest : string) :
  extractWorkshopId before = None →
  JS.is_number workshop = true →
  JS.take_digits rest = "" →
  extractWorkshopId (before +:+ "id=" +:+ workshop +:+ rest) = Some workshop.
Proof.
  intros Hbefore Hw Hrest.
  apply andb_true_iff in Hw as [Hne Hw].
  assert (extractWorkshopId ("id=" +:+ workshop +:+ rest) = Some workshop) as Hhere.
  { change ("id=" +:+ workshop +:+ rest)
      with (String "i" (String "d" (String "=" (workshop +:+ rest)))).
    rewrite extractWorkshopId_cons.
    change (JS.drop_chars 3 _) with (workshop +:+ rest).
    rewrite (take_digits_app workshop rest Hw Hrest), Hne.
    by replace (String.prefix "id=" _) with true
      by (cbn [String.prefix]; by destruct (workshop +:+ rest)). }
  induction before as [|c before IH]; [exact Hhere|].
  rewrite extractWorkshopId_cons in Hbefore.
  destruct (String.prefix "id=" (String c before) && _) eqn:Hm; [discriminate|].
  specialize (IH Hbefore).
  change (String c before +:+ "id=" +:+ workshop +:+ rest)
    with (String c (before +:+ "id=" +:+ workshop +:+ rest)).
  rewrite extractWorkshopId_cons.
  destruct (String.prefix "id=" (String c (before +:+ _)) && _) eqn:Hm'; [|exact IH].
  exfalso. apply andb_true_iff in Hm' as [Hp Hd].
  apply prefix_id_inv in Hp as [tail Hp].
  rewrite Hp in Hd. rewrite !append_cons, append_empty in Hp, Hd.
  cbn [JS.drop_chars] in Hd.
  destruct before as [|c1 [|c2 [|c3 before]]];
    rewrite ?append_cons, ?append_empty in Hp; simplify_eq.
  cbn [JS.take_digits] in Hd. destruct (JS.is_digit c3) eqn:Hc3; [|discriminate].
  apply andb_false_iff in Hm as [Hm|Hm]; [discriminate|].
  cbn [JS.drop_chars JS.take_digits] in Hm. rewrite Hc3 in Hm. discriminate.
Qed.

Lemma id_read_back_witness :
  extractWorkshopId ("https://steamcommunity.com/sharedfiles/filedetails/?" +:+ "id="
                     +:+ "1559212036" +:+ "&searchtext=") = Some "1559212036".
Proof. apply id_read_back; reflexivity. Defined.
(** ** Identifiers of jobs *)

Lemma pretty_N_go_has_char (c : ascii) (x : N) (s : string) :
  JS.is_digit c = false →
  JS.has_char c s = false → JS.has_char c (pretty_N_go x s) = false.
Proof.
  intros Hc. revert s. induction (N.lt_wf_0 x) as [x _ IH]. intros s Hs.
  destruct (decide (x = 0)%N) as [->|Hx]; [by rewrite pretty_N_go_0|].
  rewrite pretty_N_go_step by lia. apply IH; [apply N.div_lt; lia|].
  cbn [JS.has_char]. rewrite Hs, orb_false_r.
  destruct (Ascii.eqb_spec (pretty_N_char (x `mod` 10)) c) as [<-|]; [|done].
  exfalso. revert Hc. unfold pretty_N_char. by repeat case_match.
Qed.

Lemma pretty_Z_has_char (c : ascii) (z : Z) :
  JS.is_digit c = false → c ≠ "-"%char → JS.has_char c (pretty z) = false.
Proof.
  intros Hc Hdash.
  assert (∀ p : positive, JS.has_char c (pretty p) = false) as Hpos.
  { intros p. unfold pretty, pretty_positive, pretty, pretty_N.
    case_decide; [done|]. by apply pretty_N_go_has_char. }
  destruct z as [|p|p]; unfold pretty, pretty_Z.
  - cbn [JS.has_char]. destruct (Ascii.eqb_spec "0" c) as [<-|]; [discriminate|done].
  - apply Hpos.
  - change ("-" +:+ pretty p) with (String "-" (pretty p)). cbn [JS.has_char].
    rewrite Hpos, orb_false_r. by destruct (Ascii.eqb_spec "-" c).
Qed.

Lemma append_split (c : ascii) (s1 s2 t1 t2 : string) :
  JS.has_char c s1 = false → JS.has_char c s2 = false →
  s1 +:+ String c t1 = s2 +:+ String c t2 → s1 = s2 ∧ t1 = t2.
Proof.
  revert s2. induction s1 as [|a s1 IH]; intros [|b s2] H1 H2;
    rewrite ?append_cons, ?append_empty; intros Heq.
  - by simplify_eq.
  - simplify_eq. cbn in H2. by rewrite Ascii.eqb_refl in H2.
  - simplify_eq. cbn in H1. by rewrite Ascii.eqb_refl in H1.
  - simplify_eq. cbn in H1, H2.
    apply orb_false_iff in H1 as [_ H1]. apply orb_false_iff in H2 as [_ H2].
    destruct (IH s2 H1 H2 ltac:(done)) as [-> ->]. done.
Qed.

Lemma downloadId_inj (now now' counter counter' : Z) :
  "download_" +:+ pretty now +:+ "_" +:+ pretty counter =
  "download_" +:+ pretty now' +:+ "_" +:+ pretty counter' →
  now = now' ∧ counter = counter'.
Proof.
  rewrite !append_cons, !append_empty. intros Heq. simplify_eq.
  apply append_split in Heq as [Hn Hc]; [|by apply pretty_Z_has_char..].
  split; by apply (inj pretty).
Qed.
Lemma cleanupFiles_counter (e : env) (paths : list string) (force : bool) (st : state) :
  downloadCounter (cleanupFiles e paths force st) = downloadCounter st.
Proof.
  unfold cleanupFiles. destruct (_ || _); [|done].
  revert st. induction paths as [|p paths IH]; intros st; simpl; [done|].
  rewrite IH. by destruct (Fs.existsSync _ _).
Qed.

(** A state whose keys were all there before, with the same counter. *)
Lemma keys_numbered_shrink (st st' : state) :
  (∀ k, is_Some (activeDownloads st' !! k) → is_Some (activeDownloads st !! k)) →
  downloadCounter st <= downloadCounter st' →
  keys_numbered st → keys_numbered st'.
Proof.
  intros Hkeys Hcount Hinv k d Hk.
  destruct (Hkeys k ltac:(by eexists)) as [d0 Hd0].
  destruct (Hinv k d0 Hd0) as (now & counter & -> & Hle).
  exists now, counter. split; [done | lia].
Qed.

Lemma updateStatus_steady (j : job) (s : Status.t) (data : patch) (st : state) :
  keys_numbered st → keys_numbered (updateStatus j s data st).
Proof.
  apply keys_numbered_shrink.
  - intros k. rewrite updateStatus_lookup.
    destruct (activeDownloads st !! job_downloadId j) eqn:Hj; [|done].
    case_decide; [subst; by rewrite Hj | done].
  - unfold updateStatus. by destruct (activeDownloads st !! _).
Qed.

Lemma updateProgress_steady (j : job) (p : Z) (st : state) :
  keys_numbered st → keys_numbered (updateProgress j p st).
Proof.
  apply keys_numbered_shrink.
  - intros k. rewrite updateProgress_lookup.
    destruct (activeDownloads st !! job_downloadId j) eqn:Hj; [|done].
    case_decide; [subst; by rewrite Hj | done].
  - unfold updateProgress. by destruct (activeDownloads st !! _).
Qed.

Lemma fail_steady (e : env) (now : Z) (j : job) (message : string) (st : state) :
  keys_numbered st → keys_numbered (fail e now j message st).
Proof.
  apply keys_numbered_shrink.
  - intros k. rewrite fail_lookup.
    destruct (activeDownloads st !! job_downloadId j) eqn:Hj; [|done].
    case_decide; [subst; by rewrite Hj | done].
  - unfold fail. simpl.
    destruct (activeDownloads st !! job_downloadId j) as [d|] eqn:Hj; simpl.
    + destruct (JS.truthy (downloadPath d)).
      * rewrite cleanupFiles_downloads, Hj. simpl. by rewrite cleanupFiles_counter.
      * by rewrite Hj.
    + by rewrite Hj.
Qed.

Lemma register_archive_steady (e : env) (now : Z) (j : job) (archivePath : string)
    (how : option string) (st : state) :
  keys_numbered st → keys_numbered (register_archive e now j archivePath how st).
Proof.
  unfold register_archive. destruct (negb _); [apply fail_steady|].
  destruct (_ <? _); [apply fail_steady | apply updateStatus_steady].
Qed.
Lemma start_job_fresh_key (e : env) (now : Z) (workshop : string) (info : workshop_info)
    (st : state) :
  keys_numbered st →
  activeDownloads st !!
    ("download_" +:+ pretty now +:+ "_" +:+ pretty (downloadCounter st + 1)) = None.
Proof.
  intros Hinv.
  destruct (activeDownloads st !! _) as [d|] eqn:Hk; [|done].
  destruct (Hinv _ _ Hk) as (now' & counter & Heq & Hle).
  apply downloadId_inj in Heq as [_ Heq]. lia.
Qed.

Lemma start_job_numbered (e : env) (now : Z) (workshop : string) (info : workshop_info)
    (st : state) :
  keys_numbered st → keys_numbered (start_job e now workshop info st).1.2.
Proof.
  intros Hinv. unfold start_job.
  destruct (negb (isValid info)); [done|]. destruct (negb (isDayZ info)); [done|].
  cbn [fst snd]. intros k d. cbn [activeDownloads downloadCounter].
  rewrite lookup_insert. case_decide as Hk.
  - intros _. exists now, (downloadCounter st + 1). split; [done | lia].
  - intros Hd. destruct (Hinv k d Hd) as (now' & counter & -> & Hle).
    exists now', counter. split; [done | lia].
Qed.

Lemma sweep_counter (e : env) (now : Z) (st : state) :
  downloadCounter (sweep e now st) = downloadCounter st.
Proof.
  unfold sweep. generalize (map_to_list (activeDownloads st)). intros l.
  revert st. induction l as [|a l IH]; intros st; [done|].
  cbn [foldl]. rewrite IH. destruct (_ <? _); [|done]. simpl.
  destruct (JS.truthy _); [apply cleanupFiles_counter | done].
Qed.

(** The numbering of the keys is kept by every operation on the table. *)
Lemma step_keys_numbered (e : env) (o : op) (st : state) :
  keys_numbered st → keys_numbered (step e o st).
Proof.
  intros Hinv. destruct o; cbn [step].
  - unfold post_download. destruct (admission e url st); [done|].
    by apply start_job_numbered.
  - revert Hinv. apply keys_numbered_shrink.
    + intros k. unfold get_status.
      destruct (activeDownloads st !! downloadId) as [d|] eqn:Hd; [|done].
      destruct (_ && _); [|done]. cbn [snd set_downloads activeDownloads].
      rewrite lookup_insert. case_decide; [subst; by rewrite Hd | done].
    + unfold get_status. destruct (activeDownloads st !! downloadId); [|done].
      by destruct (_ && _).
  - done.
  - revert Hinv. apply keys_numbered_shrink.
    + intros k [d Hk]. exists d. by eapply deliver_lookup.
    + unfold deliver. repeat case_match; try done.
      cbn [snd]. unfold file_finished, set_downloads. cbn [downloadCounter].
      by rewrite cleanupFiles_counter.
  - revert Hinv. apply keys_numbered_shrink.
    + intros k [d Hk]. exists d. by eapply cleanup_lookup.
    + unfold cleanup. destruct (activeDownloads st !! downloadId) as [d|]; [|done].
      destruct (JS.truthy _); [|done].
      cbn [snd]. unfold record_call, set_downloads. cbn [downloadCounter].
      by rewrite cleanupFiles_counter.
  - intros k d. unfold clear. cbn [snd activeDownloads]. by rewrite lookup_empty.
  - revert Hinv. apply keys_numbered_shrink.
    + intros k. rewrite sweep_downloads. intros [d Hk].
      apply map_lookup_filter_Some in Hk as [Hk _]. by exists d.
    + by rewrite sweep_counter.
  - by apply updateProgress_steady.
  - by apply updateStatus_steady.
  - by apply updateStatus_steady.
  - by apply updateStatus_steady.
  - by apply register_archive_steady.
  - by apply fail_steady.
  - done.
Qed.

Lemma run_keys_numbered (e : env) (ops : list op) : keys_numbered (run e ops).
Proof.
  unfold run. induction ops as [|o ops IH] using rev_ind.
  - intros k d. simpl. by rewrite lookup_empty.
  - rewrite foldl_snoc. by apply step_keys_numbered.
Qed.

Lemma start_job_adds (e : env) (now : Z) (workshop : string) (info : workshop_info)
    (st : state) :
  keys_numbered st →
  isValid info = true → isDayZ info = true →
  let res := start_job e now workshop info st in
  let downloadId :=
    "download_" +:+ pretty now +:+ "_" +:+ pretty (downloadCounter st + 1) in
  code res.1.1 = 200
  ∧ activeDownloads st !! downloadId = None
  ∧ (∃ d, activeDownloads res.1.2 !! downloadId = Some d
          ∧ status d = Status.starting ∧ progress d = 0 ∧ workshopId d = workshop)
  ∧ occupancy res.1.2 = occupancy st + 1
  ∧ (∀ k d0, activeDownloads st !! k = Some d0 → activeDownloads res.1.2 !! k = Some d0)
  ∧ keys_numbered res.1.2.
Proof.
  intros Hinv Hvalid Hdayz res downloadId.
  pose proof (start_job_fresh_key e now workshop info st Hinv) as Hfresh.
  pose proof (start_job_numbered e now workshop info st Hinv) as Hnum.
  subst res downloadId.
  unfold start_job in *. rewrite Hvalid, Hdayz in *. cbn [negb fst snd] in *.
  cbn [code activeDownloads].
  split_and!; try done.
  - eexists. split; [apply lookup_insert_eq | done].
  - unfold occupancy. cbn [activeDownloads].
    rewrite map_size_insert_None by done. lia.
  - intros k d0 Hk. rewrite lookup_insert_ne; [done|]. intros <-. congruence.
Qed.

(** X3.  In every state reached by the operations on the table, each key
    is an identifier [download_<time>_<counter>] whose counter
    [downloadCounter] has reached, although clear-all sets the counter
    back to 0. *)
Theorem job_ids_numbered (e : env) (ops : list op) : keys_numbered (run e ops).
Proof. apply run_keys_numbered. Qed.

(** X4.  Once the workshop lookup has answered with a valid DayZ item,
    the submit handler creates a record under an identifier that is not
    in the table: the answer is 200, the new record is in state
    [starting] with progress 0, the number of records grows by exactly
    one and no other record is touched.  The number of records is not
    looked at again at this point. *)
Theorem accepted_job_is_new (e : env) (now : Z) (workshop : string) (info : workshop_info)
    (st : state) :
  keys_numbered st →
  isValid info = true → isDayZ info = true →
  let res := start_job e now workshop info st in
  let downloadId :=
    "download_" +:+ pretty now +:+ "_" +:+ pretty (downloadCounter st + 1) in
  code res.1.1 = 200
  ∧ activeDownloads st !! downloadId = None
  ∧ (∃ d, activeDownloads res.1.2 !! downloadId = Some d
          ∧ status d = Status.starting ∧ progress d = 0 ∧ workshopId d = workshop)
  ∧ occupancy res.1.2 = occupancy st + 1
  ∧ (∀ k d0, activeDownloads st !! k = Some d0 → activeDownloads res.1.2 !! k = Some d0)
  ∧ keys_numbered res.1.2.
Proof. apply start_job_adds. Qed.

Lemma accepted_job_is_new_witness :
  occupancy (start_job Scenario.plain 1003 "1559212036" Scenario.mod_info
               Scenario.full).1.2 = occupancy Scenario.full + 1.
Proof.
  apply (accepted_job_is_new Scenario.plain 1003 "1559212036" Scenario.mod_info
           Scenario.full); [apply run_keys_numbered | reflexivity | reflexivity].
Defined.

(** X5.  The cap is checked before the workshop lookup and not after it:
    when two requests both pass the check in the same state, both get a
    record, so that a table one below the cap ends one above it. *)
Theorem cap_checked_before_lookup (e : env) (now1 now2 : Z) (u1 u2 w1 w2 : string)
    (info1 info2 : workshop_info) (st : state) :
  keys_numbered st →
  admission e (Text u1) st = inr w1 →
  admission e (Text u2) st = inr w2 →
  isValid info1 = true → isDayZ info1 = true →
  isValid info2 = true → isDayZ info2 = true →
  let first := start_job e now1 w1 info1 st in
  let second := start_job e now2 w2 info2 first.1.2 in
  code first.1.1 = 200 ∧ code second.1.1 = 200
  ∧ occupancy second.1.2 = occupancy st + 2
  ∧ (occupancy st = maxConcurrent e - 1 → maxConcurrent e < occupancy second.1.2).
Proof.
  intros Hinv _ _ Hv1 Hd1 Hv2 Hd2 first second.
  destruct (start_job_adds e now1 w1 info1 st Hinv Hv1 Hd1)
    as (Hc1 & _ & _ & Ho1 & _ & Hinv1).
  destruct (start_job_adds e now2 w2 info2 first.1.2 Hinv1 Hv2 Hd2)
    as (Hc2 & _ & _ & Ho2 & _ & _).
  subst first second. split_and!; [done | done | lia | lia].
Qed.

Lemma cap_checked_before_lookup_witness :
  let st := run Scenario.plain [Submit 1000 Scenario.mod_url Scenario.mod_info;
                                Submit 1001 Scenario.mod_url Scenario.mod_info] in
  let first := start_job Scenario.plain 1002 "1559212036" Scenario.mod_info st in
  let second := start_job Scenario.plain 1002 "1559212036" Scenario.mod_info first.1.2 in
  occupancy st = 2 ∧ maxConcurrent Scenario.plain = 3 ∧ occupancy second.1.2 = 2 + 2.
Proof.
  intros st first second.
  split; [vm_compute; reflexivity|]. split; [reflexivity|].
  apply (cap_checked_before_lookup Scenario.plain 1002 1002
           "https://steamcommunity.com/sharedfiles/filedetails/?id=1559212036"
           "https://steamcommunity.com/sharedfiles/filedetails/?id=1559212036"
           "1559212036" "1559212036" Scenario.mod_info Scenario.mod_info st);
    [apply run_keys_numbered | vm_compute; reflexivity | vm_compute; reflexivity
     | reflexivity..].
Defined.
(** ** The workspace of a job *)

Lemma only_digits_no_slash (s : string) :
  JS.only_digits s = true → JS.has_char "/" s = false.
Proof.
  induction s as [|c s IH]; [done|]. cbn [JS.only_digits JS.has_char].
  intros [Hc Hs]%andb_true_iff. rewrite (IH Hs), orb_false_r.
  destruct (Ascii.eqb_spec c "/") as [->|]; [discriminate | done].
Qed.

Lemma has_char_append (c : ascii) (s t : string) :
  JS.has_char c (s +:+ t) = JS.has_char c s || JS.has_char c t.
Proof.
  induction s as [|a s IH]; [done|].
  rewrite append_cons. cbn [JS.has_char]. rewrite IH. by rewrite orb_assoc.
Qed.

Lemma before_last_slash_none (s : string) :
  JS.has_char "/" s = false → JS.before_last_slash s = None.
Proof.
  induction s as [|c s IH]; [done|]. cbn [JS.has_char JS.before_last_slash].
  intros [Hc Hs]%orb_false_iff. by rewrite (IH Hs), Hc.
Qed.

Lemma before_last_slash_join (dir name : string) :
  JS.has_char "/" name = false →
  JS.before_last_slash (JS.path_join dir name) = Some dir.
Proof.
  intros Hname. unfold JS.path_join. induction dir as [|c dir IH].
  - rewrite append_empty, append_cons, append_empty. cbn [JS.before_last_slash].
    by rewrite (before_last_slash_none name Hname).
  - rewrite append_cons. cbn [JS.before_last_slash]. by rewrite IH.
Qed.

Lemma dirname_join (dir name : string) :
  JS.truthy dir = true → JS.has_char "/" name = false →
  JS.dirname (JS.path_join dir name) = dir.
Proof.
  intros Hdir Hname. unfold JS.dirname. rewrite before_last_slash_join by done.
  by destruct dir.
Qed.

Lemma path_join_truthy (a b : string) : JS.truthy (JS.path_join a b) = true.
Proof. unfold JS.path_join. by destruct a. Qed.

(** The job that a submission starts. *)
Lemma post_download_job (e : env) (now : Z) (u : string) (info : workshop_info)
    (st st1 : state) (r : response) (j : job) :
  post_download e now (Text u) info st = (r, st1, Some j) →
  JS.is_number (job_workshopId j) = true
  ∧ job_zipPath j = JS.path_join (job_downloadPath j) (job_workshopId j +:+ ".zip")
  ∧ JS.truthy (job_downloadPath j) = true
  ∧ ∃ d, activeDownloads st1 !! job_downloadId j = Some d
         ∧ downloadPath d = job_downloadPath j ∧ zipPath d = job_zipPath j
         ∧ workshopId d = job_workshopId j.
Proof.
  unfold post_download, admission.
  destruct (negb (JS.truthy u)); [congruence|].
  destruct (extractWorkshopId u) as [workshop|] eqn:Hid; [|congruence].
  destruct (_ <=? _); [congruence|].
  unfold start_job. destruct (negb (isValid info)); [congruence|].
  destruct (negb (isDayZ info)); [congruence|].
  intros [= <- <- <-]. cbn [job_workshopId job_zipPath job_downloadPath job_downloadId
                             activeDownloads].
  split_and!; [by eapply extractWorkshopId_number | done | apply path_join_truthy |].
  eexists. split; [apply lookup_insert_eq | done].
Qed.

(** ** Removal of files *)

Lemma remove_lookup (fs : Fs.t) (p q : string) :
  Fs.remove fs p !! q = if Fs.at_or_under p q then None else fs !! q.
Proof.
  unfold Fs.remove. destruct (Fs.at_or_under p q) eqn:Hq.
  - apply map_lookup_filter_None. right. intros x _. simpl. congruence.
  - destruct (fs !! q) as [x|] eqn:Hx.
    + by apply map_lookup_filter_Some.
    + apply map_lookup_filter_None. by left.
Qed.

Lemma existsSync_false (fs : Fs.t) (p : string) :
  Fs.existsSync fs p = false ↔ ∀ q, Fs.at_or_under p q = true → fs !! q = None.
Proof.
  unfold Fs.existsSync. rewrite bool_decide_eq_false. split.
  - intros Hempty q Hq. destruct (fs !! q) as [x|] eqn:Hx; [|done].
    exfalso. apply Hempty. intros Hf.
    assert (filter (λ kv, Fs.at_or_under p kv.1 = true) fs !! q = Some x) as Hin
      by by apply map_lookup_filter_Some.
    rewrite Hf in Hin. by rewrite lookup_empty in Hin.
  - intros Hnone Hne. apply Hne. apply map_empty_filter.
    intros k x Hk Hp. simpl in Hp. rewrite (Hnone k Hp) in Hk. discriminate.
Qed.

Lemma remove_absent (fs : Fs.t) (p : string) :
  Fs.existsSync fs p = false → Fs.remove fs p = fs.
Proof.
  intros Hp. apply map_eq. intros q. rewrite remove_lookup.
  destruct (Fs.at_or_under p q) eqn:Hq; [|done].
  symmetry. by apply existsSync_false with p.
Qed.

Lemma cleanupFiles_fs (e : env) (paths : list string) (st : state) (q : string) :
  fs (cleanupFiles e paths true st) !! q =
  if existsb (λ p, Fs.at_or_under p q) paths then None else fs st !! q.
Proof.
  unfold cleanupFiles. cbn [orb]. revert st.
  induction paths as [|p paths IH]; intros st; [done|].
  cbn [foldl existsb]. rewrite IH.
  assert (fs (if Fs.existsSync (fs st) p
              then {| activeDownloads := activeDownloads st;
                      downloadCounter := downloadCounter st;
                      cleanupQueue := cleanupQueue st ∖ {[p]};
                      fs := Fs.remove (fs st) p; db := db st |}
              else st) = Fs.remove (fs st) p) as ->.
  { destruct (Fs.existsSync (fs st) p) eqn:Hp; [done|]. by rewrite remove_absent. }
  rewrite remove_lookup.
  destruct (Fs.at_or_under p q); simpl; [by destruct (existsb _ _) | done].
Qed.

Lemma cleanupFiles_gone (e : env) (paths : list string) (st : state) (p : string) :
  p ∈ paths → Fs.existsSync (fs (cleanupFiles e paths true st)) p = false.
Proof.
  intros Hin. apply existsSync_false. intros q Hq. rewrite cleanupFiles_fs.
  rewrite (proj2 (existsb_exists _ _)); [done|].
  exists p. split; [by apply list_elem_of_In | done].
Qed.

Lemma cleanupFiles_noop (e : env) (paths : list string) (force : bool) (st : state) :
  (∀ p, p ∈ paths → Fs.existsSync (fs st) p = false) →
  cleanupFiles e paths force st = st.
Proof.
  intros Hgone. unfold cleanupFiles. destruct (_ || _); [|done].
  induction paths as [|p paths IH]; [done|]. cbn [foldl].
  rewrite (Hgone p) by by left. apply IH. intros p' Hp'. apply Hgone. by right.
Qed.


(** ** The sweeper and clear-all *)

Lemma cleanupFiles_keeps_absent (e : env) (paths : list string) (force : bool)
    (st : state) (q : string) :
  fs st !! q = None → fs (cleanupFiles e paths force st) !! q = None.
Proof.
  intros Hq.
  assert (cleanupFiles e paths force st = st
          ∨ cleanupFiles e paths force st = cleanupFiles e paths true st) as [->| ->].
  { unfold cleanupFiles. destruct force; [by right|]. cbn [orb].
    case_bool_decide; [by right | by left]. }
  - done.
  - rewrite cleanupFiles_fs. by destruct (existsb _ _).
Qed.

Lemma sweep_disk (e : env) (now : Z) (st : state) :
  (∀ q, fs st !! q = None → fs (sweep e now st) !! q = None)
  ∧ (∀ k d, activeDownloads st !! k = Some d → maxAge < now - startTime d →
            JS.truthy (downloadPath d) = true →
            Fs.existsSync (fs (sweep e now st)) (downloadPath d) = false).
Proof.
  unfold sweep.
  assert (∀ l st0 q, fs st0 !! q = None →
            fs (foldl (λ st entry,
                 if maxAge <? now - startTime entry.2 then
                   let st := if JS.truthy (downloadPath entry.2)
                             then cleanupFiles e [downloadPath entry.2] true st else st in
                   let st := record_call
                               (updateDownloadInHistory entry.1 (AutoCleaned now)) st in
                   set_downloads (delete entry.1) st
                 else st) st0 l) !! q = None) as Hmono.
  { induction l as [|a l IH]; intros st0 q Hq; [done|]. cbn [foldl]. apply IH.
    destruct (_ <? _); [|done]. cbn [fs set_downloads record_call].
    destruct (JS.truthy _); [by apply cleanupFiles_keeps_absent | done]. }
  split; [apply Hmono|].
  intros k d Hk Hold Hpath. apply elem_of_map_to_list in Hk.
  revert Hk. generalize (map_to_list (activeDownloads st)) as l. intros l. revert st.
  induction l as [|a l IH]; intros st Hin; [by apply elem_of_nil in Hin|].
  apply elem_of_cons in Hin as [<-|Hin]; [|by apply IH].
  cbn [foldl fst snd]. rewrite (proj2 (Z.ltb_lt _ _) Hold), Hpath.
  apply existsSync_false. intros q Hq. apply Hmono.
  cbn [fs set_downloads record_call]. rewrite cleanupFiles_fs. cbn [existsb].
  by rewrite Hq.
Qed.


Lemma clear_disk (e : env) (now : Z) (st : state) :
  (∀ q, fs st !! q = None → fs (clear e now st).2 !! q = None)
  ∧ (∀ k d, activeDownloads st !! k = Some d →
            JS.truthy (downloadPath d) = true →
            Fs.existsSync (fs (clear e now st).2) (downloadPath d) = false).
Proof.
  unfold clear. cbn [snd fs].
  assert (∀ l st0 q, fs st0 !! q = None →
            fs (foldl (λ st entry,
                 let st := if JS.truthy (downloadPath entry.2)
                           then cleanupFiles e [downloadPath entry.2] true st else st in
                 record_call (updateDownloadInHistory entry.1
                                (Cleaned now (Some "manual_clear"))) st) st0 l) !! q
            = None) as Hmono.
  { induction l as [|a l IH]; intros st0 q Hq; [done|]. cbn [foldl]. apply IH.
    cbn [fs record_call].
    destruct (JS.truthy _); [by apply cleanupFiles_keeps_absent | done]. }
  split; [apply Hmono|].
  intros k d Hk Hpath. apply elem_of_map_to_list in Hk.
  revert Hk. generalize (map_to_list (activeDownloads st)) as l. intros l. revert st.
  induction l as [|a l IH]; intros st Hin; [by apply elem_of_nil in Hin|].
  apply elem_of_cons in Hin as [<-|Hin]; [|by apply IH].
  cbn [foldl fst snd]. rewrite Hpath.
  apply existsSync_false. intros q Hq. apply Hmono.
  cbn [fs record_call]. rewrite cleanupFiles_fs. cbn [existsb].
  by rewrite Hq.
Qed.


(** ** What a pipeline leaves behind *)

Lemma recorded_after_update (j j' : job) (p : patch) (st : state) (d' : download) :
  workspace_recorded j st →
  activeDownloads st !! job_downloadId j' = Some d' →
  workspace_recorded j
    (record_call (updateDownloadInHistory (job_downloadId j') (Patch p))
       (set_downloads (insert (job_downloadId j') (spread d' p)) st)).
Proof.
  intros (d & Hd & Hp) Hd'. unfold workspace_recorded. cbn [activeDownloads record_call
    set_downloads]. rewrite lookup_insert. case_decide as Hk.
  - rewrite Hk in Hd'. assert (d' = d) as -> by congruence.
    eexists. split; [done|]. by cbn [spread downloadPath].
  - by exists d.
Qed.

Lemma updateStatus_recorded (j j' : job) (s : Status.t) (data : patch) (st : state) :
  workspace_recorded j st → workspace_recorded j (updateStatus j' s data st).
Proof.
  intros H. unfold updateStatus.
  destruct (activeDownloads st !! job_downloadId j') eqn:Hj; [|done].
  by apply recorded_after_update.
Qed.

Lemma updateProgress_recorded (j j' : job) (p : Z) (st : state) :
  workspace_recorded j st → workspace_recorded j (updateProgress j' p st).
Proof.
  intros H. unfold updateProgress.
  destruct (activeDownloads st !! job_downloadId j') eqn:Hj; [|done].
  by apply recorded_after_update.
Qed.

Lemma downloadWorkshopItem_keeps (P : state → Prop) (e : env) (w dp : string)
    (cb : Z → state → state) (i : inputs) (st : state) :
  (∀ f st0, P st0 → P (set_fs f st0)) →
  (∀ p st0, P st0 → P (cb p st0)) →
  P st → P (downloadWorkshopItem e w dp cb i st).1.2.
Proof.
  intros Hfs Hcb HP. unfold downloadWorkshopItem.
  destruct (steamcmd i); [|done].
  destruct (Adapter.retryDownload _ _ _ _) as [[result|message] a].
  { cbn [fst snd]. by apply Hcb, Hfs, Hcb. }
  destruct (Adapter.spawn _ _ _) as [p a'].
  assert (∀ chunks acc, P acc.1 → P (foldl (fallback_chunk cb) acc chunks).1) as Hfold.
  { induction chunks as [|c chunks IH]; intros acc Hacc; [done|]. cbn [foldl].
    apply IH. unfold fallback_chunk. destruct (JS.includes _ _); [|done].
    cbn [fst]. by apply Hcb. }
  assert (P (foldl (fallback_chunk cb)
               (set_fs (λ _, Adapter.fs a')
                  (cb 35 (set_fs (λ _, Adapter.fs a) (cb 30 st))), 35)
               (Adapter.stdout p)).1) as Hdone.
  { apply Hfold. cbn [fst]. by apply Hfs, Hcb, Hfs, Hcb. }
  destruct (Adapter.ends p); cbn [fst snd]; [|done|done].
  destruct (_ || _); cbn [fst snd]; by apply Hcb.
Qed.

Lemma createZipArchive_keeps (P : state → Prop) (e : env) (src out w : string)
    (cb : Z → state → state) (run : archive_run) (st : state) :
  (∀ f st0, P st0 → P (set_fs f st0)) →
  (∀ p st0, P st0 → P (cb p st0)) →
  P st → P (createZipArchive e src out w cb run st).2.
Proof.
  intros Hfs Hcb HP. unfold createZipArchive.
  destruct (archive_source _ _ _ _); [|done].
  assert (∀ events st0, P st0 → P (foldl (archive_progress cb) st0 events)) as Hfold.
  { induction events as [|ev events IH]; intros st0 H0; [done|]. cbn [foldl].
    apply IH. unfold archive_progress. destruct (_ <? _); [by apply Hcb | done]. }
  destruct (finish run); cbn [snd]; try by apply Hfs, Hfold.
  destruct (_ <? _); cbn [snd]; [apply Hcb|]; by apply Hfs, Hfold.
Qed.

Lemma set_fs_recorded (j : job) (f : Fs.t → Fs.t) (st : state) :
  workspace_recorded j st → workspace_recorded j (set_fs f st).
Proof. done. Qed.

(** The [catch] block: the record becomes an error record that carries
    the message, and the workspace is gone. *)
Lemma fail_outcome (e : env) (now : Z) (j : job) (message : string) (st : state) :
  workspace_recorded j st → JS.truthy (job_downloadPath j) = true →
  ∃ d, activeDownloads (fail e now j message st) !! job_downloadId j = Some d
       ∧ status d = Status.error ∧ error d = Some message
       ∧ Fs.existsSync (fs (fail e now j message st)) (job_downloadPath j) = false.
Proof.
  intros (d0 & Hd0 & Hp0) Hpath.
  rewrite fail_lookup, Hd0, decide_True by done.
  eexists. split; [done|]. split; [done|]. split; [done|].
  unfold fail. rewrite Hd0, Hp0, Hpath.
  rewrite cleanupFiles_downloads, Hd0.
  cbn [fs record_call set_downloads]. apply cleanupFiles_gone. by left.
Qed.
